(** * keyvalue: an append-only log with an optional in-memory index

    A shallow embedding of the Go package [keyvalue] (type [Store] and its
    methods [load], [Set], [Get], [Delete], [Compact], [Close] and
    [FindByFunction]), followed by the properties of the store that are
    checked against it.

    Modelling conventions.
    - The Go map [s.data] is a [gmap string string]; Go strings are byte
      strings, and so are Rocq's, hence [len(key)] is [String.length key].
    - Go's [int] limits are integers in [Z]; they may be zero or negative.
    - The log file is seen through its readers.  [disk] is the list of the
      lines [bufio.Scanner] delivers, each represented by what
      [json.Unmarshal] makes of it: an error ([Malformed]) or the decoded
      [Entry] ([Parsed e]).  The scanner gives up at a line of 64 KiB or
      more and delivers nothing after it; [ending] says whether the file
      goes on with such a line ([Overlong]), ends with an unterminated line
      left there by a failed write ([Torn n], the line having [n] bytes and
      being the last of [disk]), or ends after a newline ([Clean]).
    - A record is written as [json.Marshal(entry) + "\n"].  [json.Marshal]
      cannot fail on a struct of two strings and a boolean, so the branch
      that returns [ErrorEncodingJSON] is never taken; it replaces each byte
      that is not part of a valid UTF-8 sequence by U+FFFD and escapes some
      characters, which is what [coerce] and [Marshal_len] compute.  The
      record is read back with the keys and values so coerced.
    - [s.file] is a handle that is either open or closed.  A write on a closed
      handle fails and writes nothing; a write on an open handle succeeds, or
      fails after some bytes of the record have reached the file, as the
      argument of type [write_fault] of the mutating operations says.  The
      operations do not look at the number of bytes written, and a record
      appended to an unterminated line makes one line with it.
    - The file named [s.filename] exists from [NewStore] on and can be
      opened, so the branches taken when [os.Open] fails are left out, and so
      are failures of creating, writing and renaming the temporary file of
      [Compact].
    - Go iterates over a map in an unspecified order; the model takes the
      order of [map_to_list], and the properties below that depend on such an
      order are stated up to permutation.
    - The readers-writer lock has no effect on a sequential run and is left
      out. *)

From stdpp Require Import gmap strings list fin_maps.
From Stdlib Require Import ZArith NArith Ascii Lia.

Local Open Scope string_scope.
Local Open Scope list_scope.
Local Open Scope Z_scope.

(** ** Data model *)

(** [type Entry struct { Key, Value string; Deleted bool }] *)
Record Entry : Type := mkEntry {
  Key : string;
  Value : string;
  Deleted : bool
}.

(** One line of the log file, as [json.Unmarshal] sees it. *)
Inductive line : Type :=
| Malformed
| Parsed (e : Entry).

(** The state of the [*os.File] held in [s.file]. *)
Inductive handle : Type :=
| Open
| Closed.

(** How the file goes on after the lines the scanner delivers. *)
Inductive file_end : Type :=
| Clean
| Torn (n : Z)
| Overlong.

(** [type StoreConfig struct] *)
Record StoreConfig : Type := mkConfig {
  UseMemory : bool;
  MaxKeys : Z;
  MaxKeySize : Z;
  MaxValueSize : Z
}.

(** [type Store struct]; [disk] and [ending] are the content of the file
    [s.filename]. *)
Record Store : Type := mkStore {
  data : gmap string string;
  useMemory : bool;
  disk : list line;
  ending : file_end;
  file : handle;
  maxKeys : Z;
  maxKeySize : Z;
  maxValueSize : Z
}.

(** The errors the package returns: those it builds with [fmt.Errorf], by
    message, and the error of the scanner, which [FindByFunction] passes
    on. *)
Inductive error : Type :=
| KeyExceedsMaxSize (limit : Z)      (* "key exceeds max size of %d bytes" *)
| ValueExceedsMaxSize (limit : Z)    (* "value exceeds max size of %d bytes" *)
| ReachedMaxKeys (limit : Z)         (* "store has reached max number of keys (%d)" *)
| ErrorEncodingJSON                  (* "error encoding JSON: %v" *)
| ErrorWritingLogFile                (* "error writing to log file: %v" *)
| NoEntriesFound                     (* "no entries found matching the criteria" *)
| TokenTooLong.                      (* bufio.ErrTooLong, "bufio.Scanner: token too long" *)

(** The error kinds of the design, and the kind of each error of the code. *)
Inductive error_kind : Type :=
| ValidationError
| CapacityError
| SerializationError
| IOError
| NotFoundError
| ClosedError
| LoadError.

Definition kind_of (e : error) : error_kind :=
  match e with
  | KeyExceedsMaxSize _ | ValueExceedsMaxSize _ => ValidationError
  | ReachedMaxKeys _ => CapacityError
  | ErrorEncodingJSON => SerializationError
  | ErrorWritingLogFile | TokenTooLong => IOError
  | NoEntriesFound => NotFoundError
  end.

Inductive result (A : Type) : Type :=
| Ok (a : A)
| Err (e : error).
Arguments Ok {A} a.
Arguments Err {A} e.

#[global] Instance Entry_eq_dec : EqDecision Entry.
Proof. solve_decision. Defined.
#[global] Instance line_eq_dec : EqDecision line.
Proof. solve_decision. Defined.
#[global] Instance handle_eq_dec : EqDecision handle.
Proof. solve_decision. Defined.
#[global] Instance file_end_eq_dec : EqDecision file_end.
Proof. solve_decision. Defined.

(** [len(x)] of a Go string, as an [int]. *)
Definition len (x : string) : Z := Z.of_nat (String.length x).

(** [len(m)] of a Go map, as an [int]. *)
Definition len_map (m : gmap string string) : Z := Z.of_nat (size m).

(** Field updates. *)
Definition with_data (d : gmap string string) (s : Store) : Store :=
  mkStore d (useMemory s) (disk s) (ending s) (file s)
          (maxKeys s) (maxKeySize s) (maxValueSize s).
Definition with_disk (l : list line) (s : Store) : Store :=
  mkStore (data s) (useMemory s) l (ending s) (file s)
          (maxKeys s) (maxKeySize s) (maxValueSize s).
Definition with_log (l : list line) (e : file_end) (s : Store) : Store :=
  mkStore (data s) (useMemory s) l e (file s)
          (maxKeys s) (maxKeySize s) (maxValueSize s).
Definition with_file (h : handle) (s : Store) : Store :=
  mkStore (data s) (useMemory s) (disk s) (ending s) h
          (maxKeys s) (maxKeySize s) (maxValueSize s).

(** ** The text of a record *)

Definition byte (c : ascii) : N := N_of_ascii c.

Definition in_range (lo hi : N) (c : ascii) : bool :=
  ((lo <=? byte c) && (byte c <=? hi))%N.

(** [utf8.DecodeRuneInString]: the number of bytes of the UTF-8 sequence at
    the head of the string, or 0 when the head is not such a sequence (the
    decoder then yields [RuneError] and moves on by one byte). *)
Definition rune_size (s : string) : nat :=
  match s with
  | EmptyString => 0
  | String c1 s1 =>
      if (byte c1 <? 128)%N then 1
      else
        match s1 with
        | EmptyString => 0
        | String c2 s2 =>
            if in_range 194 223 c1 then (if in_range 128 191 c2 then 2 else 0)
            else
              let second :=
                if (byte c1 =? 224)%N then in_range 160 191 c2
                else if (byte c1 =? 237)%N then in_range 128 159 c2
                else if (byte c1 =? 240)%N then in_range 144 191 c2
                else if (byte c1 =? 244)%N then in_range 128 143 c2
                else in_range 128 191 c2 in
              match s2 with
              | EmptyString => 0
              | String c3 s3 =>
                  if in_range 224 239 c1
                  then (if second && in_range 128 191 c3 then 3 else 0)
                  else if in_range 240 244 c1 then
                    match s3 with
                    | EmptyString => 0
                    | String c4 _ =>
                        if second && in_range 128 191 c3 && in_range 128 191 c4
                        then 4 else 0
                    end
                  else 0
              end
        end
  end%nat.

(** A string as the encoder of [encoding/json] walks it: valid sequences
    and, one at a time, the bytes that belong to none. *)
Inductive rune : Type :=
| Valid (bytes : string)
| Invalid.

Fixpoint runes (s : string) : list rune :=
  match s with
  | EmptyString => []
  | String c1 s1 =>
      match rune_size s, s1 with
      | 2%nat, String c2 rest => Valid (String c1 (String c2 "")) :: runes rest
      | 3%nat, String c2 (String c3 rest) =>
          Valid (String c1 (String c2 (String c3 ""))) :: runes rest
      | 4%nat, String c2 (String c3 (String c4 rest)) =>
          Valid (String c1 (String c2 (String c3 (String c4 "")))) :: runes rest
      | 1%nat, _ => Valid (String c1 "") :: runes s1
      | _, _ => Invalid :: runes s1
      end
  end.

(** U+FFFD, in UTF-8. *)
Definition replacement : string :=
  String (ascii_of_N 239) (String (ascii_of_N 191) (String (ascii_of_N 189) "")).

(** The string a reader gets back for a string written by [json.Marshal]:
    every byte outside a valid sequence has become U+FFFD. *)
Definition coerce (s : string) : string :=
  foldr (λ r acc, match r with Valid b => b +:+ acc | Invalid => replacement +:+ acc end)
        "" (runes s).

(** The number of bytes the encoder writes for one byte below 128: two for a
    quote, a backslash and the control characters with a short escape, six
    for the other control characters and for [<], [>] and [&], one for the
    rest. *)
Definition ascii_width (c : ascii) : Z :=
  let b := byte c in
  if ((b =? 34) || (b =? 92))%N then 2
  else if ((b =? 8) || (b =? 9) || (b =? 10) || (b =? 12) || (b =? 13))%N then 2
  else if (b <? 32)%N then 6
  else if ((b =? 60) || (b =? 62) || (b =? 38))%N then 6
  else 1.

(** U+2028 and U+2029, which the encoder escapes. *)
Definition is_separator (b : string) : bool :=
  match b with
  | String c1 (String c2 (String c3 EmptyString)) =>
      ((byte c1 =? 226) && (byte c2 =? 128) && ((byte c3 =? 168) || (byte c3 =? 169)))%N
  | _ => false
  end.

Definition rune_width (r : rune) : Z :=
  match r with
  | Invalid => 6
  | Valid (String c EmptyString) => ascii_width c
  | Valid b => if is_separator b then 6 else len b
  end.

(** The length of a string as a JSON string, quotes included. *)
Definition quoted_len (s : string) : Z :=
  2 + foldr (λ r acc, rune_width r + acc) 0 (runes s).

(** [len(json.Marshal(entry))]: the key always, the value unless it is
    empty, the deleted flag when it is set. *)
Definition Marshal_len (e : Entry) : Z :=
  7 + quoted_len (Key e)
  + (if decide (Value e = "") then 0 else 9 + quoted_len (Value e))
  + (if Deleted e then 15 else 0)
  + 1.

(** What [json.Unmarshal] makes of [json.Marshal(entry)]. *)
Definition as_read (e : Entry) : line :=
  Parsed (mkEntry (coerce (Key e)) (coerce (Value e)) (Deleted e)).

(** [bufio.MaxScanTokenSize]: a line of that many bytes or more cannot be
    delivered. *)
Definition scanner_limit : Z := 65536.

(** ** Writing to the file *)

(** The file after [size] more bytes, which the readers take for [l] when
    they make a line of their own; [newline] says whether a newline
    follows them.  After an unterminated line the bytes make one line with
    it, which does not decode. *)
Definition add_bytes (size : Z) (l : line) (newline : bool)
  (lines : list line) (e : file_end) : list line * file_end :=
  match e with
  | Overlong => (lines, Overlong)
  | Clean =>
      if size >=? scanner_limit then (lines, Overlong)
      else (lines ++ [l], if newline then Clean else Torn size)
  | Torn n =>
      if n + size >=? scanner_limit then (removelast lines, Overlong)
      else (removelast lines ++ [Malformed], if newline then Clean else Torn (n + size))
  end.

(** What the operating system does with a write: all of it, or a failure
    after [n] bytes. *)
Inductive write_fault : Type :=
| NoFault
| FailsAfter (n : Z).

(** [s.file.WriteString(string(data) + "\n")] for the record [entry]: the
    file afterwards, and whether the write succeeded.  A failed write has
    written fewer bytes than the record and its newline have. *)
Definition WriteString (h : handle) (w : write_fault) (entry : Entry)
  (lines : list line) (e : file_end) : list line * file_end * bool :=
  match h with
  | Closed => (lines, e, false)
  | Open =>
      match w with
      | NoFault => (add_bytes (Marshal_len entry) (as_read entry) true lines e, true)
      | FailsAfter n =>
          if n <=? 0 then (lines, e, false)
          else if n <? Marshal_len entry
               then (add_bytes n Malformed false lines e, false)
               else (add_bytes (Marshal_len entry) (as_read entry) false lines e, false)
      end
  end.

(** ** The log *)

(** The effect of one decoded record on a map: the body of the loop of
    [load], [delete(s.data, entry.Key)] or [s.data[entry.Key] = entry.Value]. *)
Definition apply_entry (e : Entry) (d : gmap string string) : gmap string string :=
  if Deleted e then delete (Key e) d else <[Key e := Value e]> d.

(** The loop of [load] over the lines the scanner delivers: malformed lines
    are skipped ([continue]); after each decoded record the size of the map
    is compared with [maxKeys], and the loop is left ([break]) when it is
    larger.  The loop also ends, without a word, when the scanner stops. *)
Fixpoint load_loop (maxK : Z) (lines : list line) (d : gmap string string)
  : gmap string string :=
  match lines with
  | [] => d
  | Malformed :: rest => load_loop maxK rest d
  | Parsed e :: rest =>
      let d' := apply_entry e d in
      if len_map d' >? maxK then d' else load_loop maxK rest d'
  end.

(** [func (s *Store) load()] *)
Definition load (s : Store) : Store :=
  with_data (load_loop (maxKeys s) (disk s) (data s)) s.

(** [func NewStore(filename string, config StoreConfig) *Store], on a file
    of which the scanner delivers [lines] and that goes on as [e] says (the
    empty list and [Clean] for a file just created). *)
Definition NewStore (lines : list line) (e : file_end) (config : StoreConfig) : Store :=
  let s := mkStore ∅ (UseMemory config) lines e Open
                   (MaxKeys config) (MaxKeySize config) (MaxValueSize config) in
  if UseMemory config then load s else s.

(** ** The operations *)

(** [func (s *Store) Set(key, value string) error] *)
Definition Set' (w : write_fault) (key value : string) (s : Store) : Store * option error :=
  if len key >? maxKeySize s then (s, Some (KeyExceedsMaxSize (maxKeySize s)))
  else if len value >? maxValueSize s then (s, Some (ValueExceedsMaxSize (maxValueSize s)))
  else if useMemory s && (len_map (data s) >=? maxKeys s)
       then (s, Some (ReachedMaxKeys (maxKeys s)))
  else
    let entry := mkEntry key value false in
    let '(lines, e, written) := WriteString (file s) w entry (disk s) (ending s) in
    let s1 := with_log lines e s in
    if written
    then ((if useMemory s then with_data (<[key := value]> (data s1)) s1 else s1), None)
    else (s1, Some ErrorWritingLogFile).

(** The scan of [Get] in file-only mode, with its two variables. *)
Fixpoint Get_scan (key : string) (lines : list line) (lastValue : string) (exists_ : bool)
  : string * bool :=
  match lines with
  | [] => (lastValue, exists_)
  | Malformed :: rest => Get_scan key rest lastValue exists_
  | Parsed entry :: rest =>
      if decide (Key entry = key) then
        if Deleted entry then Get_scan key rest "" false
        else Get_scan key rest (Value entry) true
      else Get_scan key rest lastValue exists_
  end.

(** [func (s *Store) Get(key string) (string, bool)] *)
Definition Get (key : string) (s : Store) : string * bool :=
  if useMemory s then
    match data s !! key with
    | Some val => (val, true)
    | None => ("", false)
    end
  else Get_scan key (disk s) "" false.

(** [func (s *Store) Delete(key string) error] *)
Definition Delete (w : write_fault) (key : string) (s : Store) : Store * option error :=
  let entry := mkEntry key "" true in
  let '(lines, e, written) := WriteString (file s) w entry (disk s) (ending s) in
  let s1 := with_log lines e s in
  if written
  then ((if useMemory s then with_data (delete key (data s1)) s1 else s1), None)
  else (s1, Some ErrorWritingLogFile).

(** The temporary file of [Compact]: one record per pair of the map, written
    one after the other to an empty file. *)
Definition dump_from (kvs : list (string * string)) : list line * file_end :=
  fold_left (λ acc kv,
               let entry := mkEntry kv.1 kv.2 false in
               add_bytes (Marshal_len entry) (as_read entry) true acc.1 acc.2)
            kvs ([], Clean).

Definition dump (d : gmap string string) : list line * file_end :=
  dump_from (map_to_list d).

(** [func (s *Store) Compact()]: the temporary file replaces the log, the old
    handle is closed and a new one is opened. *)
Definition Compact (s : Store) : Store :=
  with_file Open (with_log (dump (data s)).1 (dump (data s)).2 s).

(** [func (s *Store) Close()] *)
Definition Close (s : Store) : Store := with_file Closed s.

(** The first loop of [FindByFunction], over [s.data]. *)
Definition find_in_memory (fn : string → string → bool) (d : gmap string string)
  : gmap string string :=
  map_fold (λ key value results, if fn key value then <[key := value]> results else results)
           ∅ d.

(** The second loop of [FindByFunction], over the lines of the file. *)
Fixpoint find_in_file (fn : string → string → bool) (lines : list line)
  (results : gmap string string) : gmap string string :=
  match lines with
  | [] => results
  | Malformed :: rest => find_in_file fn rest results
  | Parsed entry :: rest =>
      if Deleted entry then find_in_file fn rest results
      else if fn (Key entry) (Value entry)
           then find_in_file fn rest (<[Key entry := Value entry]> results)
           else find_in_file fn rest results
  end.

(** [scanner.Err()] after the loop over the file: the scanner stopped at a
    line of 64 KiB or more, or reached the end of the file. *)
Definition scanner_Err (e : file_end) : option error :=
  match e with
  | Overlong => Some TokenTooLong
  | _ => None
  end.

(** [func (s *Store) FindByFunction(fn func(string, string) bool) ([]Entry, error)] *)
Definition FindByFunction (fn : string → string → bool) (s : Store) : result (list Entry) :=
  let results := find_in_memory fn (data s) in
  let build results :=
    let result := (λ kv, mkEntry kv.1 kv.2 false) <$> map_to_list results in
    if decide (length result = 0%nat) then Err NoEntriesFound else Ok result in
  if useMemory s then build results
  else
    let results := find_in_file fn (disk s) results in
    match scanner_Err (ending s) with
    | Some err => Err err
    | None => build results
    end.

(** The older copy of the package has the same [load], [Set], [Delete] and
    [Compact]; its [Get] differs in file-only mode: it returns at the first
    tombstone of the key instead of going on with the scan. *)
Module Legacy.

Fixpoint Get_scan (key : string) (lines : list line) (lastValue : string) (exists_ : bool)
  : string * bool :=
  match lines with
  | [] => (lastValue, exists_)
  | Malformed :: rest => Get_scan key rest lastValue exists_
  | Parsed entry :: rest =>
      if decide (Key entry = key) then
        if Deleted entry then ("", false)
        else Get_scan key rest (Value entry) true
      else Get_scan key rest lastValue exists_
  end.

Definition Get (key : string) (s : Store) : string * bool :=
  if useMemory s then
    match data s !! key with
    | Some val => (val, true)
    | None => ("", false)
    end
  else Get_scan key (disk s) "" false.

(** [func NewStore(filename string, useMemory bool, maxKeys, maxKeySize,
    maxValueSize int) *Store] of the older copy: the same body, with the
    limits as separate arguments. *)
Definition NewStore (lines : list line) (e : file_end) (useMem : bool)
  (maxK maxKS maxVS : Z) : Store :=
  let s := mkStore ∅ useMem lines e Open maxK maxKS maxVS in
  if useMem then load s else s.

End Legacy.

(** ** Replay, as the design describes it

    Records are processed in log order; a tombstone for a key removes the key
    from the working state, any other record sets or overwrites it; malformed
    records are skipped.  Nothing stops the replay before the end. *)
Definition replay_line (d : gmap string string) (l : line) : gmap string string :=
  match l with
  | Malformed => d
  | Parsed e => apply_entry e d
  end.

Definition replay_from (d : gmap string string) (lines : list line) : gmap string string :=
  fold_left replay_line lines d.

Definition replay (lines : list line) : gmap string string := replay_from ∅ lines.

(** The answer of [Get] for a key whose canonical state is [o]. *)
Definition answer (o : option string) : string * bool :=
  match o with
  | Some v => (v, true)
  | None => ("", false)
  end.

(** The canonical form of a log: no malformed line, no tombstone, and no key
    twice. *)
Definition live (l : line) : bool :=
  match l with
  | Malformed => false
  | Parsed e => negb (Deleted e)
  end.

Definition key_of (l : line) : string :=
  match l with
  | Malformed => ""
  | Parsed e => Key e
  end.

Definition canonical (lines : list line) : Prop :=
  Forall (λ l, live l = true) lines ∧ NoDup (key_of <$> lines).

(** ** Records that are read back as written *)

(** The string is valid UTF-8: the encoder leaves its bytes as they are. *)
Definition valid_utf8 (s : string) : Prop := coerce s = s.

(** The record, once written, is a line the scanner can deliver. *)
Definition fits (e : Entry) : Prop := Marshal_len e < scanner_limit.

(** The record is read back as it was written. *)
Definition readable (e : Entry) : Prop :=
  valid_utf8 (Key e) ∧ valid_utf8 (Value e) ∧ fits e.

(** The write succeeds, or fails before a byte has reached the file. *)
Definition atomic (w : write_fault) : Prop :=
  match w with
  | NoFault => True
  | FailsAfter n => n ≤ 0
  end.

#[global] Instance valid_utf8_dec s : Decision (valid_utf8 s).
Proof. unfold valid_utf8. apply _. Defined.
#[global] Instance fits_dec e : Decision (fits e).
Proof. unfold fits. apply _. Defined.
#[global] Instance readable_dec e : Decision (readable e).
Proof. unfold readable. apply _. Defined.
#[global] Instance atomic_dec w : Decision (atomic w).
Proof. destruct w; simpl; apply _. Defined.

(** ** Sequences of mutations *)

Inductive op : Type :=
| OpSet (w : write_fault) (key value : string)
| OpDelete (w : write_fault) (key : string).

Definition step (o : op) (s : Store) : Store * option error :=
  match o with
  | OpSet w key value => Set' w key value s
  | OpDelete w key => Delete w key s
  end.

(** The store after the calls of [ops], in order, and the error each call
    returned. *)
Fixpoint run (ops : list op) (s : Store) : Store * list (option error) :=
  match ops with
  | [] => (s, [])
  | o :: rest =>
      let '(s1, e) := step o s in
      let '(s2, es) := run rest s1 in
      (s2, e :: es)
  end.

(** The key a mutation is about, the record it writes, and the fault its
    write meets. *)
Definition op_key (o : op) : string :=
  match o with
  | OpSet _ key _ => key
  | OpDelete _ key => key
  end.

Definition entry_of (o : op) : Entry :=
  match o with
  | OpSet _ key value => mkEntry key value false
  | OpDelete _ key => mkEntry key "" true
  end.

Definition fault_of (o : op) : write_fault :=
  match o with
  | OpSet w _ _ => w
  | OpDelete w _ => w
  end.

(** A mutation whose record is read back as written and whose write, if it
    fails, leaves nothing in the file. *)
Definition plain (o : op) : Prop := atomic (fault_of o) ∧ readable (entry_of o).

#[global] Instance plain_dec o : Decision (plain o).
Proof. unfold plain. apply _. Defined.


(** The configuration of the example program, for either mode. *)
Definition example_config (b : bool) : StoreConfig := mkConfig b 100 256 1024.

(** The records for a list of pairs, in the order of the list. *)
Definition to_lines (l : list (string * string)) : list line :=
  (λ kv, Parsed (mkEntry kv.1 kv.2 false)) <$> l.



(** The lines the second loop of [FindByFunction] acts on: the records that
    are not tombstones and satisfy the predicate. *)
Definition matching (fn : string → string → bool) (l : line) : bool :=
  match l with
  | Malformed => false
  | Parsed e => negb (Deleted e) && fn (Key e) (Value e)
  end.

(** ** Sequences of calls of the whole interface *)

Inductive call : Type :=
| CallSet (w : write_fault) (key value : string)
| CallDelete (w : write_fault) (key : string)
| CallCompact
| CallClose.

(** The store after one call; the error a call returns is dropped. *)
Definition call_step (s : Store) (c : call) : Store :=
  match c with
  | CallSet w key value => (Set' w key value s).1
  | CallDelete w key => (Delete w key s).1
  | CallCompact => Compact s
  | CallClose => Close s
  end.

Definition calls (cs : list call) (s : Store) : Store := fold_left call_step cs s.

(** A call whose record, if it writes one, is read back as written, and
    whose write, if it fails, leaves nothing in the file. *)
Definition plain_call (c : call) : Prop :=
  match c with
  | CallSet w key value => plain (OpSet w key value)
  | CallDelete w key => plain (OpDelete w key)
  | CallCompact | CallClose => True
  end.

#[global] Instance plain_call_dec c : Decision (plain_call c).
Proof. destruct c; simpl; apply _. Defined.

(** The record a mutation appends when it succeeds. *)
Definition record_of (o : op) : line := Parsed (entry_of o).

(** The records appended by a sequence of mutations, given the error each
    one returned. *)
Fixpoint written (ops : list op) (es : list (option error)) : list line :=
  match ops, es with
  | o :: ops', None :: es' => record_of o :: written ops' es'
  | _ :: ops', Some _ :: es' => written ops' es'
  | _, _ => []
  end.


(** The lines of a log that [json.Unmarshal] accepts. *)
Definition decodes (l : line) : bool :=
  match l with
  | Malformed => false
  | Parsed _ => true
  end.

(** Whether the log holds a tombstone of the key. *)
Definition is_tombstone_of (key : string) (l : line) : bool :=
  match l with
  | Malformed => false
  | Parsed e => bool_decide (Key e = key) && Deleted e
  end.

(** The calls [Set(k, v)] for the pairs of a list, in order, none of them
    hit by a write failure. *)
Definition sets_of (kvs : list (string * string)) : list op :=
  (λ kv, OpSet NoFault kv.1 kv.2) <$> kvs.

(** Every pair of the map makes a record that is read back as written. *)
Definition storable (d : gmap string string) : Prop :=
  map_Forall (λ k v, readable (mkEntry k v false)) d.

(** The map from which [FindByFunction] builds the list it returns. *)
Definition found (fn : string → string → bool) (s : Store) : gmap string string :=
  if useMemory s then find_in_memory fn (data s)
  else find_in_file fn (disk s) (find_in_memory fn (data s)).


(** A key of 64 KiB, and a key that is not valid UTF-8 (the byte 255). *)
Definition long_key : string :=
  foldr String "" (replicate (Z.to_nat scanner_limit) "a"%char).

Definition bad_key : string := String (ascii_of_N 255) "".

(** * Properties *)

(** ** Field updates and projections *)

Lemma Close_fields s :
  data (Close s) = data s ∧ useMemory (Close s) = useMemory s ∧
  disk (Close s) = disk s ∧ ending (Close s) = ending s ∧ file (Close s) = Closed ∧
  maxKeys (Close s) = maxKeys s ∧ maxKeySize (Close s) = maxKeySize s ∧
  maxValueSize (Close s) = maxValueSize s.
Proof. by destruct s. Qed.

Lemma with_log_id s : with_log (disk s) (ending s) s = s.
Proof. by destruct s. Qed.

(** ** Writes *)

Lemma as_read_readable e : readable e → as_read e = Parsed e.
Proof.
  intros (Hk & Hv & _). unfold as_read. rewrite Hk, Hv. by destruct e.
Qed.

Lemma add_bytes_readable e lines :
  readable e →
  add_bytes (Marshal_len e) (as_read e) true lines Clean = (lines ++ [Parsed e], Clean).
Proof.
  intros Hr. rewrite as_read_readable by done. destruct Hr as (_ & _ & Hfit).
  unfold fits in Hfit. simpl.
  destruct (Marshal_len e >=? scanner_limit) eqn:Hge; [lia|done].
Qed.

Lemma WriteString_Closed w entry lines e :
  WriteString Closed w entry lines e = (lines, e, false).
Proof. done. Qed.

Lemma WriteString_written h w entry lines e lines' e' :
  WriteString h w entry lines e = (lines', e', true) →
  h = Open ∧ w = NoFault ∧
  (lines', e') = add_bytes (Marshal_len entry) (as_read entry) true lines e.
Proof.
  destruct h, w as [|n]; simpl; try done.
  - by intros [= <-].
  - destruct (n <=? 0); [done|]. by destruct (n <? Marshal_len entry).
Qed.

Lemma WriteString_NoFault entry lines e :
  WriteString Open NoFault entry lines e =
    (add_bytes (Marshal_len entry) (as_read entry) true lines e, true).
Proof. done. Qed.

(** A write that fails on a closed handle, or before its first byte, leaves
    the file as it was. *)
Lemma WriteString_failed_whole h w entry lines e :
  h = Closed ∨ atomic w →
  (WriteString h w entry lines e).2 = false →
  WriteString h w entry lines e = (lines, e, false).
Proof.
  intros Hw. destruct h; [|done]. destruct Hw as [|Hw]; [done|].
  destruct w as [|n]; simpl in *; [done|].
  by destruct (n <=? 0) eqn:Hn; [|lia].
Qed.

(** ** Replay *)

Lemma replay_from_app d l1 l2 :
  replay_from d (l1 ++ l2) = replay_from (replay_from d l1) l2.
Proof. apply fold_left_app. Qed.

Lemma replay_snoc lines l : replay (lines ++ [l]) = replay_line (replay lines) l.
Proof. unfold replay. by rewrite replay_from_app. Qed.

Lemma replay_from_cons d l lines :
  replay_from d (l :: lines) = replay_from (replay_line d l) lines.
Proof. done. Qed.

(** ** The loop of [load] *)



(** ** The scan of [Get] *)

Lemma Get_scan_replay key lines d lastValue exists_ :
  (lastValue, exists_) = answer (d !! key) →
  Get_scan key lines lastValue exists_ = answer (replay_from d lines !! key).
Proof.
  revert d lastValue exists_.
  induction lines as [|l rest IH]; intros d lastValue exists_ Hstate; [done|].
  destruct l as [|e]; simpl; [by apply IH|].
  unfold apply_entry. destruct (decide (Key e = key)) as [<-|Hne].
  - destruct (Deleted e); apply IH.
    + by rewrite lookup_delete_eq.
    + by rewrite lookup_insert_eq.
  - destruct (Deleted e); apply IH.
    + by rewrite lookup_delete_ne.
    + by rewrite lookup_insert_ne.
Qed.

Lemma Get_unindexed key s :
  useMemory s = false → Get key s = answer (replay (disk s) !! key).
Proof.
  intros Hu. unfold Get. rewrite Hu. by apply Get_scan_replay.
Qed.

Lemma Get_memory key s :
  useMemory s = true → Get key s = answer (data s !! key).
Proof. intros Hm. unfold Get. by rewrite Hm. Qed.

(** ** What a mutation does *)

(** [Set] once its three checks have passed. *)
Lemma Set_within_limits w key value s :
  len key ≤ maxKeySize s → len value ≤ maxValueSize s →
  (useMemory s = true → len_map (data s) < maxKeys s) →
  Set' w key value s =
    let r := WriteString (file s) w (mkEntry key value false) (disk s) (ending s) in
    if r.2
    then (mkStore (if useMemory s then <[key := value]> (data s) else data s)
                  (useMemory s) r.1.1 r.1.2 (file s)
                  (maxKeys s) (maxKeySize s) (maxValueSize s), None)
    else (with_log r.1.1 r.1.2 s, Some ErrorWritingLogFile).
Proof.
  destruct s as [d um dk en f mk mks mvs]. unfold Set'. simpl. intros Hk Hv Hc.
  destruct (len key >? mks) eqn:Hk'; [lia|].
  destruct (len value >? mvs) eqn:Hv'; [lia|].
  assert (um && (len_map d >=? mk) = false) as ->.
  { destruct um; [|done]. simpl. specialize (Hc eq_refl). lia. }
  destruct (WriteString _ _ _ _ _) as [[lines e] written]. simpl.
  destruct written; [|done]. by destruct um.
Qed.

(** [Set] when one of its three checks fails. *)
Lemma Set_rejected w key value s :
  ¬ (len key ≤ maxKeySize s ∧ len value ≤ maxValueSize s ∧
     (useMemory s = true → len_map (data s) < maxKeys s)) →
  ∃ e, Set' w key value s = (s, Some e) ∧ e ≠ ErrorWritingLogFile.
Proof.
  intros Hnot. unfold Set'.
  destruct (len key >? maxKeySize s) eqn:Hk; [by eexists|].
  destruct (len value >? maxValueSize s) eqn:Hv; [by eexists|].
  destruct (useMemory s && (len_map (data s) >=? maxKeys s)) eqn:Hc; [by eexists|].
  exfalso. apply Hnot. split_and!; [lia..|].
  intros Hm. rewrite Hm in Hc. simpl in Hc. lia.
Qed.

Lemma Set_ok w key value s s' :
  Set' w key value s = (s', None) →
  w = NoFault ∧ file s = Open ∧
  len key ≤ maxKeySize s ∧ len value ≤ maxValueSize s ∧
  (useMemory s = true → len_map (data s) < maxKeys s) ∧
  let entry := mkEntry key value false in
  let added := add_bytes (Marshal_len entry) (as_read entry) true (disk s) (ending s) in
  s' = mkStore (if useMemory s then <[key := value]> (data s) else data s)
               (useMemory s) added.1 added.2 (file s)
               (maxKeys s) (maxKeySize s) (maxValueSize s).
Proof.
  intros Hset.
  destruct (decide (len key ≤ maxKeySize s ∧ len value ≤ maxValueSize s ∧
     (useMemory s = true → len_map (data s) < maxKeys s))) as [(Hk & Hv & Hc)|Hnot].
  - rewrite Set_within_limits in Hset by done. simpl in Hset.
    destruct (WriteString _ _ _ _ _) as [[lines e] written] eqn:Hw. simpl in Hset.
    destruct written; [|done]. injection Hset as <-.
    apply WriteString_written in Hw as (Ho & -> & Hadd).
    split_and!; try done. simpl. by rewrite <-Hadd.
  - destruct (Set_rejected w key value s Hnot) as (e & He & _). congruence.
Qed.

Lemma Delete_spec w key s :
  Delete w key s =
    let r := WriteString (file s) w (mkEntry key "" true) (disk s) (ending s) in
    if r.2
    then (mkStore (if useMemory s then delete key (data s) else data s)
                  (useMemory s) r.1.1 r.1.2 (file s)
                  (maxKeys s) (maxKeySize s) (maxValueSize s), None)
    else (with_log r.1.1 r.1.2 s, Some ErrorWritingLogFile).
Proof.
  destruct s as [d um dk en f mk mks mvs]. unfold Delete. simpl.
  destruct (WriteString _ _ _ _ _) as [[lines e] written]. simpl.
  destruct written; [|done]. by destruct um.
Qed.

(** Whatever a mutation returns, it changes nothing but the index and the
    file; and when it returns an error it leaves the index too. *)
Lemma step_frame o s :
  useMemory (step o s).1 = useMemory s ∧ file (step o s).1 = file s ∧
  maxKeys (step o s).1 = maxKeys s ∧ maxKeySize (step o s).1 = maxKeySize s ∧
  maxValueSize (step o s).1 = maxValueSize s ∧
  ((step o s).2 ≠ None → data (step o s).1 = data s) ∧
  (useMemory s = false → data (step o s).1 = data s).
Proof.
  destruct o as [w key value|w key]; simpl.
  - destruct (decide (len key ≤ maxKeySize s ∧ len value ≤ maxValueSize s ∧
      (useMemory s = true → len_map (data s) < maxKeys s))) as [(Hk & Hv & Hc)|Hnot].
    + rewrite Set_within_limits by done. simpl.
      destruct (WriteString _ _ _ _ _) as [[lines e] written]. simpl.
      destruct written; simpl; split_and!; try done. by intros ->.
    + destruct (Set_rejected w key value s Hnot) as (e & -> & _). done.
  - rewrite Delete_spec. simpl.
    destruct (WriteString _ _ _ _ _) as [[lines e] written]. simpl.
    destruct written; simpl; split_and!; try done. by intros ->.
Qed.

(** A mutation whose record is read back as written, on a file that ends
    after a newline: the file grows by that record when the call succeeds and
    is left alone when it fails, and the index follows. *)
Lemma step_plain o s :
  plain o → ending s = Clean →
  ending (step o s).1 = Clean ∧
  disk (step o s).1 =
    (if (step o s).2 is None then disk s ++ [record_of o] else disk s) ∧
  data (step o s).1 =
    (if (step o s).2 is None
     then (if useMemory s then apply_entry (entry_of o) (data s) else data s)
     else data s).
Proof.
  intros [Hat Hrd] Hcl.
  assert (∀ entry, readable entry → atomic (fault_of o) →
            let r := WriteString (file s) (fault_of o) entry (disk s) (ending s) in
            r = (if r.2 then (disk s ++ [Parsed entry], Clean, true)
                 else (disk s, Clean, false))) as Hwrite.
  { intros entry Hr Ha. simpl.
    destruct (WriteString _ _ _ _ _) as [[lines e] written] eqn:Hw. simpl.
    destruct written.
    - apply WriteString_written in Hw as (_ & _ & Hadd).
      rewrite Hcl, add_bytes_readable in Hadd by done. congruence.
    - rewrite WriteString_failed_whole in Hw; [congruence|by right|by rewrite Hw]. }
  destruct o as [w key value|w key]; simpl in *.
  - destruct (decide (len key ≤ maxKeySize s ∧ len value ≤ maxValueSize s ∧
      (useMemory s = true → len_map (data s) < maxKeys s))) as [(Hk & Hv & Hc)|Hnot].
    + rewrite Set_within_limits by done. simpl.
      specialize (Hwrite _ Hrd Hat). simpl in Hwrite. rewrite Hwrite.
      destruct (WriteString _ _ _ _ _).2; simpl; [|done].
      split_and!; try done.
    + destruct (Set_rejected w key value s Hnot) as (e & -> & _). done.
  - rewrite Delete_spec. simpl.
    specialize (Hwrite _ Hrd Hat). simpl in Hwrite. rewrite Hwrite.
    destruct (WriteString _ _ _ _ _).2; simpl; [|done].
    split_and!; try done.
Qed.

(** ** The lines written by [Compact] *)

Lemma replay_from_to_lines l d i :
  NoDup l.*1 →
  replay_from d (to_lines l) !! i =
    match (list_to_map l : gmap string string) !! i with
    | Some v => Some v
    | None => d !! i
    end.
Proof.
  revert d. induction l as [|[k v] l IH]; intros d Hnd.
  - simpl. by rewrite lookup_empty.
  - apply NoDup_cons in Hnd as [Hk Hnd]. simpl.
    rewrite IH by done. unfold apply_entry. simpl.
    destruct (decide (k = i)) as [->|Hne].
    + rewrite lookup_insert_eq.
      by rewrite (not_elem_of_list_to_map_1 l i Hk), lookup_insert_eq.
    + rewrite (lookup_insert_ne (list_to_map l)) by done.
      destruct (list_to_map l !! i); [done|]. by rewrite lookup_insert_ne.
Qed.

(** Whatever the order in which the map is iterated, records that carry its
    pairs replay to the map. *)
Lemma replay_to_lines_perm l (d : gmap string string) :
  l ≡ₚ map_to_list d → replay (to_lines l) = d.
Proof.
  intros Hp. assert (NoDup l.*1) as Hnd.
  { rewrite Hp. apply NoDup_fst_map_to_list. }
  apply map_eq. intros i. unfold replay. rewrite replay_from_to_lines by done.
  rewrite (list_to_map_proper l (map_to_list d)) by done.
  rewrite list_to_map_to_list, lookup_empty. by destruct (d !! i).
Qed.



(** Pairs that make readable records are written as they are, one line
    each. *)
Lemma dump_from_readable kvs :
  Forall (λ kv, readable (mkEntry kv.1 kv.2 false)) kvs →
  dump_from kvs = (to_lines kvs, Clean).
Proof.
  intros Hall. unfold dump_from.
  assert (∀ acc,
    fold_left (λ acc kv,
                 let entry := mkEntry kv.1 kv.2 false in
                 add_bytes (Marshal_len entry) (as_read entry) true acc.1 acc.2)
              kvs (acc, Clean) = (acc ++ to_lines kvs, Clean)) as Hgen.
  { induction Hall as [|kv kvs Hkv Hall IH]; intros acc.
    - simpl. by rewrite app_nil_r.
    - cbn [fold_left fst snd]. rewrite add_bytes_readable by done.
      rewrite IH. unfold to_lines. rewrite fmap_cons, <-app_assoc. by destruct kv. }
  apply (Hgen []).
Qed.

Lemma storable_list (d : gmap string string) l :
  storable d → l ≡ₚ map_to_list d →
  Forall (λ kv, readable (mkEntry kv.1 kv.2 false)) l.
Proof.
  intros Hst Hp. apply Forall_forall. intros [k v] Hin.
  rewrite Hp in Hin. apply elem_of_map_to_list in Hin. by apply (Hst k v).
Qed.

Lemma dump_storable d : storable d → dump d = (to_lines (map_to_list d), Clean).
Proof. intros Hst. apply dump_from_readable. by apply (storable_list d). Qed.

Lemma dump_empty : dump ∅ = ([], Clean).
Proof. unfold dump. by rewrite map_to_list_empty. Qed.

Lemma replay_dump d : storable d → replay (dump d).1 = d.
Proof. intros Hst. rewrite dump_storable by done. by apply replay_to_lines_perm. Qed.

(** With an empty map, compaction leaves an empty log. *)
Lemma Compact_empty_data s :
  data s = ∅ → disk (Compact s) = [] ∧ ending (Compact s) = Clean.
Proof. intros Hd. unfold Compact. simpl. by rewrite Hd, dump_empty. Qed.

(** ** Invariants of the two modes *)

Lemma step_useMemory o s : useMemory (step o s).1 = useMemory s.
Proof. apply step_frame. Qed.

Lemma step_data_unindexed o s : useMemory s = false → data (step o s).1 = data s.
Proof. apply step_frame. Qed.

Lemma NewStore_unindexed lines e config :
  UseMemory config = false →
  NewStore lines e config =
    mkStore ∅ false lines e Open (MaxKeys config) (MaxKeySize config) (MaxValueSize config).
Proof. unfold NewStore. by intros ->. Qed.



Lemma run_cons o rest s :
  run (o :: rest) s =
    ((run rest (step o s).1).1, (step o s).2 :: (run rest (step o s).1).2).
Proof. simpl. destruct (step o s) as [s1 e]. simpl. by destruct (run rest s1). Qed.

Lemma run_cons_fst o rest s : (run (o :: rest) s).1 = (run rest (step o s).1).1.
Proof. by rewrite run_cons. Qed.

Lemma run_useMemory ops s : useMemory (run ops s).1 = useMemory s.
Proof.
  revert s. induction ops as [|o rest IH]; intros s; [done|].
  rewrite run_cons_fst, IH. apply step_useMemory.
Qed.


(** ** The two modes side by side *)





(** ** The result of [FindByFunction] *)

Lemma find_in_memory_empty fn : find_in_memory fn ∅ = ∅.
Proof. apply map_fold_empty. Qed.

(** The first loop keeps the pairs of the map that satisfy the predicate. *)
Lemma find_in_memory_filter fn d :
  find_in_memory fn d = filter (λ kv, fn kv.1 kv.2 = true) d.
Proof.
  unfold find_in_memory.
  apply (map_fold_weak_ind (λ r m, r = filter (λ kv, fn kv.1 kv.2 = true) m)).
  - by rewrite map_filter_empty.
  - intros i x m r Hi ->. destruct (fn i x) eqn:Hfn.
    + by rewrite map_filter_insert_True.
    + rewrite map_filter_insert_False, delete_id; [done..|]. simpl. by rewrite Hfn.
Qed.

Lemma FindByFunction_Ok fn s r :
  FindByFunction fn s = Ok r →
  r = (λ kv, mkEntry kv.1 kv.2 false) <$> map_to_list (found fn s) ∧ r ≠ [].
Proof.
  unfold FindByFunction, found. destruct (useMemory s).
  - case_decide as Hlen; [done|]. intros [= <-].
    split; [done|]. intros Hnil. by rewrite Hnil in Hlen.
  - destruct (scanner_Err (ending s)); [done|].
    case_decide as Hlen; [done|]. intros [= <-].
    split; [done|]. intros Hnil. by rewrite Hnil in Hlen.
Qed.

Lemma FindByFunction_memory fn s e :
  useMemory s = true →
  (∃ r, FindByFunction fn s = Ok r ∧ e ∈ r) ↔
  (data s !! Key e = Some (Value e) ∧ fn (Key e) (Value e) = true ∧ Deleted e = false).
Proof.
  intros Hm. unfold FindByFunction. rewrite Hm, find_in_memory_filter. split.
  - intros (r & Hr & He). case_decide; [done|]. injection Hr as <-.
    apply list_elem_of_fmap in He as ([k v] & -> & Hkv). simpl.
    apply elem_of_map_to_list in Hkv.
    apply map_lookup_filter_Some in Hkv as [Hkv Hfn]. done.
  - intros (Hd & Hfn & Hdel).
    assert (e ∈ (λ kv, mkEntry kv.1 kv.2 false) <$>
                 map_to_list (filter (λ kv, fn kv.1 kv.2 = true) (data s))) as He.
    { apply list_elem_of_fmap. exists (Key e, Value e). split.
      - destruct e; simpl in *; by subst.
      - apply elem_of_map_to_list, map_lookup_filter_Some. done. }
    case_decide as Hlen.
    + apply length_zero_iff_nil in Hlen. rewrite Hlen in He. by apply elem_of_nil in He.
    + eauto.
Qed.

(** The second loop replays, over the results so far, the matching records
    of the file: it works on the raw lines, not on the canonical state. *)
Lemma find_in_file_raw fn lines results :
  find_in_file fn lines results =
    replay_from results (List.filter (matching fn) lines).
Proof.
  revert results. induction lines as [|l rest IH]; intros results; [done|].
  destruct l as [|e]; simpl; [apply IH|].
  destruct (Deleted e) eqn:Hd; simpl; [apply IH|].
  destruct (fn (Key e) (Value e)); simpl; [|apply IH].
  rewrite IH. unfold apply_entry. by rewrite Hd.
Qed.

(** In file-only mode a store built by [NewStore] keeps an empty map, so
    [Compact] leaves an empty log whatever was written before. *)
Lemma run_data_unindexed ops s :
  useMemory s = false →
  data (run ops s).1 = data s ∧ useMemory (run ops s).1 = false.
Proof.
  revert s. induction ops as [|o rest IH]; intros s Hu; [done|].
  rewrite run_cons. simpl.
  destruct (IH (step o s).1) as [Hd Hu'].
  { by rewrite step_useMemory. }
  split; [|done]. rewrite Hd. by apply step_data_unindexed.
Qed.

Lemma Compact_unindexed_reachable lines e config ops :
  UseMemory config = false →
  disk (Compact (run ops (NewStore lines e config)).1) = [].
Proof.
  intros Hu. apply Compact_empty_data.
  rewrite NewStore_unindexed by done.
  by destruct (run_data_unindexed ops (mkStore ∅ false lines e Open (MaxKeys config)
                 (MaxKeySize config) (MaxValueSize config)) eq_refl) as [-> _].
Qed.

(** * The claims *)

(** ** Compaction *)

(** C1. [Compact] is meant to rewrite the log so that its replay is the
    canonical state of the log before compaction, in both modes.  In
    file-only mode it does not: it dumps the map [s.data], which is empty in
    that mode, without scanning the log first.  After [Set("k","v")] on a
    fresh file-only store the key is readable; after [Compact] the log is
    empty, the key is gone, and the replay of the log has changed. *)
Theorem Compact_unindexed_erases_log :
  let s := (Set' NoFault "k" "v" (NewStore [] Clean (example_config false))).1 in
  useMemory s = false ∧
  disk s = [Parsed (mkEntry "k" "v" false)] ∧
  Get "k" s = ("v", true) ∧
  disk (Compact s) = [] ∧
  Get "k" (Compact s) = ("", false) ∧
  replay (disk (Compact s)) ≠ replay (disk s).
Proof.
  split_and!; try (vm_compute; reflexivity).
  intros Heq. apply (f_equal (λ m : gmap string string, m !! "k")) in Heq.
  vm_compute in Heq. discriminate.
Qed.

(** ** The capacity check of [Set] *)

(** C2, as stated, fails: with memory mode on, [maxKeys = 1] and the index
    holding the one key "a", overwriting "a" is rejected like a new key. *)
Lemma Set_overwrite_at_capacity_rejected :
  let s := (Set' NoFault "a" "1" (NewStore [] Clean (mkConfig true 1 256 1024))).1 in
  useMemory s = true ∧ len_map (data s) = maxKeys s ∧ file s = Open ∧
  data s !! "a" = Some "1" ∧
  Set' NoFault "a" "2" s = (s, Some (ReachedMaxKeys 1)) ∧
  (Set' NoFault "a" "2" s).2 ≠ None.
Proof. split_and!; try (vm_compute; reflexivity). vm_compute. discriminate. Qed.

(** C2, amended. With memory mode on and the index holding [maxKeys] keys or
    more, [Set] of a key and value within the size limits fails with the
    capacity error for every key, in the index or not, and leaves the store
    as it was: the check does not look at the key. *)
Theorem Set_at_capacity_rejects_every_key w key value s :
  useMemory s = true →
  len_map (data s) >= maxKeys s →
  len key ≤ maxKeySize s →
  len value ≤ maxValueSize s →
  Set' w key value s = (s, Some (ReachedMaxKeys (maxKeys s))) ∧
  kind_of (ReachedMaxKeys (maxKeys s)) = CapacityError.
Proof.
  intros Hm Hfull Hk Hv. split; [|done]. unfold Set'.
  destruct (len key >? maxKeySize s) eqn:Hk'; [lia|].
  destruct (len value >? maxValueSize s) eqn:Hv'; [lia|].
  rewrite Hm. simpl.
  destruct (len_map (data s) >=? maxKeys s) eqn:Hc; [done|lia].
Qed.

Lemma Set_at_capacity_rejects_every_key_witness :
  let s := (Set' NoFault "a" "1" (NewStore [] Clean (mkConfig true 1 256 1024))).1 in
  useMemory s = true ∧ len_map (data s) >= maxKeys s ∧
  len "a" ≤ maxKeySize s ∧ len "2" ≤ maxValueSize s ∧
  Set' NoFault "a" "2" s = (s, Some (ReachedMaxKeys (maxKeys s))) ∧
  kind_of (ReachedMaxKeys (maxKeys s)) = CapacityError.
Proof.
  intros s.
  assert (useMemory s = true) as H1 by reflexivity.
  assert (len_map (data s) >= maxKeys s) as H2 by (vm_compute; discriminate).
  assert (len "a" ≤ maxKeySize s) as H3 by (vm_compute; discriminate).
  assert (len "2" ≤ maxValueSize s) as H4 by (vm_compute; discriminate).
  exact (conj H1 (conj H2 (conj H3 (conj H4
    (Set_at_capacity_rejects_every_key NoFault "a" "2" s H1 H2 H3 H4))))).
Defined.

(** ** The replay of [load] *)




(** ** Predicate search in file-only mode *)

(** C4. In file-only mode [FindByFunction] is meant to evaluate the predicate
    on the canonical state of the log.  It evaluates it on the raw lines
    instead, only skipping the tombstones: a key set and then deleted is
    still returned with its old value, and a key overwritten with a value
    that no longer matches is returned with the old, matching value.  The
    memory-mode store reports no match after the same calls. *)
Theorem FindByFunction_unindexed_reads_raw_lines :
  let is_k := λ key _ : string, bool_decide (key = "k") in
  let is_v := λ _ value : string, bool_decide (value = "v") in
  let after mode ops := (run ops (NewStore [] Clean (example_config mode))).1 in
  let deleted := [OpSet NoFault "k" "v"; OpDelete NoFault "k"] in
  let overwritten := [OpSet NoFault "k" "v"; OpSet NoFault "k" "w"] in
  replay (disk (after false deleted)) !! "k" = None ∧
  Get "k" (after false deleted) = ("", false) ∧
  FindByFunction is_k (after false deleted) = Ok [mkEntry "k" "v" false] ∧
  FindByFunction is_k (after true deleted) = Err NoEntriesFound ∧
  replay (disk (after false overwritten)) !! "k" = Some "w" ∧
  Get "k" (after false overwritten) = ("w", true) ∧
  FindByFunction is_v (after false overwritten) = Ok [mkEntry "k" "v" false] ∧
  FindByFunction is_v (after true overwritten) = Err NoEntriesFound.
Proof. split_and!; vm_compute; reflexivity. Qed.

(** ** Operations after [Close] *)

(** C5, as stated, fails: the store keeps no record of having been closed.
    After [Close], [Get] and [FindByFunction] answer as before, in both
    modes, and [Compact] reopens the log, after which [Set] succeeds. *)
Lemma operations_succeed_after_Close :
  let sm := Close (Set' NoFault "k" "v" (NewStore [] Clean (example_config true))).1 in
  let su := Close (Set' NoFault "k" "v" (NewStore [] Clean (example_config false))).1 in
  file sm = Closed ∧ file su = Closed ∧
  Get "k" sm = ("v", true) ∧
  Get "k" su = ("v", true) ∧
  FindByFunction (λ _ _, true) sm = Ok [mkEntry "k" "v" false] ∧
  FindByFunction (λ _ _, true) su = Ok [mkEntry "k" "v" false] ∧
  file (Compact sm) = Open ∧
  (Set' NoFault "j" "w" (Compact sm)).2 = None.
Proof. split_and!; vm_compute; reflexivity. Qed.

(** C5, amended. After [Close], [Set] and [Delete] fail and leave the store as
    it was: [Delete] with the error of the write to the log, [Set] with that
    same error unless a size or capacity check rejects the call first; no
    error of the code is a closed-store error.  [Get] and [FindByFunction]
    return what they returned before [Close], and [Compact] does what it does
    on an open store, which includes reopening the log. *)
Theorem operations_after_Close s :
  (∀ w key value, ∃ e,
      Set' w key value (Close s) = (Close s, Some e) ∧
      kind_of e ≠ ClosedError ∧
      (len key ≤ maxKeySize s → len value ≤ maxValueSize s →
       (useMemory s = true → len_map (data s) < maxKeys s) →
       e = ErrorWritingLogFile)) ∧
  (∀ w key, Delete w key (Close s) = (Close s, Some ErrorWritingLogFile)) ∧
  (∀ key, Get key (Close s) = Get key s) ∧
  (∀ fn, FindByFunction fn (Close s) = FindByFunction fn s) ∧
  Compact (Close s) = Compact s ∧
  file (Compact (Close s)) = Open.
Proof.
  destruct s as [d um dk en f mk mks mvs]. split_and!; try done.
  intros w key value. unfold Set', Close. simpl.
  destruct (len key >? mks) eqn:Hk.
  { eexists. split_and!; [done..|]. lia. }
  destruct (len value >? mvs) eqn:Hv.
  { eexists. split_and!; [done..|]. lia. }
  destruct um; simpl.
  - destruct (len_map d >=? mk) eqn:Hc.
    { eexists. split_and!; [done..|]. intros _ _ Hlt. specialize (Hlt eq_refl). lia. }
    eexists. split_and!; done.
  - eexists. split_and!; done.
Qed.

Lemma operations_after_Close_witness :
  let s := (Set' NoFault "k" "v" (NewStore [] Clean (example_config true))).1 in
  len "j" ≤ maxKeySize s ∧ len "w" ≤ maxValueSize s ∧
  (useMemory s = true → len_map (data s) < maxKeys s) ∧
  Set' NoFault "j" "w" (Close s) = (Close s, Some ErrorWritingLogFile).
Proof.
  intros s.
  assert (len "j" ≤ maxKeySize s) as H1 by (vm_compute; discriminate).
  assert (len "w" ≤ maxValueSize s) as H2 by (vm_compute; discriminate).
  assert (useMemory s = true → len_map (data s) < maxKeys s) as H3
    by (intros _; vm_compute; reflexivity).
  split_and!; [done..|].
  destruct (proj1 (operations_after_Close s) NoFault "j" "w") as (e & Heq & _ & He).
  rewrite Heq. by rewrite (He H1 H2 H3).
Defined.

(** ** [Get] in file-only mode *)

(** The current [Get], in file-only mode, returns the state of the key after
    the scan of all the lines delivered, where a tombstone makes the key
    absent and any other record of the key makes it present with the value of
    the record: the answer is the one the replay of those lines gives for the
    key, and it follows the last line as described.  On a file that ends
    after a newline, for a key and values that are valid UTF-8 and make
    records shorter than 64 KiB, after [Set(key,v)], [Delete(key)],
    [Set(key,w)] the answer is [w], and after [Set(key,v)], [Delete(key)] the
    key is absent. *)
Lemma Get_unindexed_scans_whole_log s key :
  useMemory s = false →
  Get key s = answer (replay (disk s) !! key) ∧
  (∀ lines l, disk s = lines ++ [l] →
     Get key s =
       match l with
       | Malformed => Get key (with_disk lines s)
       | Parsed e =>
           if decide (Key e = key)
           then (if Deleted e then ("", false) else (Value e, true))
           else Get key (with_disk lines s)
       end) ∧
  (∀ v w, file s = Open → ending s = Clean →
     len key ≤ maxKeySize s → len v ≤ maxValueSize s → len w ≤ maxValueSize s →
     readable (mkEntry key v false) → readable (mkEntry key w false) →
     readable (mkEntry key "" true) →
     Get key (run [OpSet NoFault key v; OpDelete NoFault key; OpSet NoFault key w] s).1
       = (w, true) ∧
     Get key (run [OpSet NoFault key v; OpDelete NoFault key] s).1 = ("", false)).
Proof.
  intros Hu. split_and!.
  - by apply Get_unindexed.
  - intros lines l Hd. rewrite !Get_unindexed by done. rewrite Hd, replay_snoc.
    destruct l as [|e]; simpl; [done|]. unfold apply_entry.
    destruct (decide (Key e = key)) as [<-|Hne]; destruct (Deleted e).
    + by rewrite lookup_delete_eq.
    + by rewrite lookup_insert_eq.
    + by rewrite lookup_delete_ne.
    + by rewrite lookup_insert_ne.
  - intros v w Ho Hcl Hk Hv Hw Hrv Hrw Hrt.
    set (o1 := OpSet NoFault key v). set (o2 := OpDelete NoFault key).
    set (o3 := OpSet NoFault key w).
    assert (plain o1 ∧ plain o2 ∧ plain o3) as (Hp1 & Hp2 & Hp3) by done.
    assert (∀ o s0, (o = o1 ∨ o = o2 ∨ o = o3) →
              useMemory s0 = false → file s0 = Open → ending s0 = Clean →
              maxKeySize s0 = maxKeySize s → maxValueSize s0 = maxValueSize s →
              (step o s0).2 = None) as Hok.
    { intros o s0 Hcase Hu0 Ho0 Hcl0 Hks Hvs.
      destruct Hcase as [-> | [-> | ->]]; simpl.
      - rewrite Set_within_limits by (rewrite ?Hks, ?Hvs, ?Hu0; done). simpl.
        by rewrite Ho0.
      - rewrite Delete_spec. simpl. by rewrite Ho0.
      - rewrite Set_within_limits by (rewrite ?Hks, ?Hvs, ?Hu0; done). simpl.
        by rewrite Ho0. }
    rewrite !run_cons. cbn [run fst snd].
    pose proof (step_plain o1 s Hp1 Hcl) as (Hc1 & Hd1 & _).
    pose proof (step_frame o1 s) as (Hu1 & Hf1 & _ & Hks1 & Hvs1 & _).
    rewrite (Hok o1 s) in Hd1; [|try done; try (by left)..].
    remember (step o1 s).1 as s1 eqn:Hs1. clear Hs1.
    pose proof (step_plain o2 s1 Hp2 Hc1) as (Hc2 & Hd2 & _).
    pose proof (step_frame o2 s1) as (Hu2 & Hf2 & _ & Hks2 & Hvs2 & _).
    rewrite (Hok o2 s1) in Hd2; [|try congruence; try (by right; left)..].
    remember (step o2 s1).1 as s2 eqn:Hs2. clear Hs2.
    pose proof (step_plain o3 s2 Hp3 Hc2) as (Hc3 & Hd3 & _).
    pose proof (step_frame o3 s2) as (Hu3 & _).
    rewrite (Hok o3 s2) in Hd3; [|try congruence; try (by right; right)..].
    rewrite !Get_unindexed by congruence. split.
    + rewrite Hd3, replay_snoc. simpl.
      unfold apply_entry. simpl. by rewrite lookup_insert_eq.
    + rewrite Hd2, replay_snoc. simpl.
      unfold apply_entry. simpl. by rewrite lookup_delete_eq.
Qed.

(** C6. In file-only mode [Get] is meant to go through the whole log and
    return the last state of the key, so that after [Set(key,"v")],
    [Delete(key)], [Set(key,"w")] it returns ["w"].  The [Get] of the older
    copy of the package does not: it returns at the first tombstone of the
    key, and reports the key absent although the log ends with a record that
    sets it.  The current [Get] returns ["w"] on the same log. *)
Theorem Legacy_Get_stops_at_tombstone :
  let s := (run [OpSet NoFault "k" "v"; OpDelete NoFault "k"; OpSet NoFault "k" "w"]
                (Legacy.NewStore [] Clean false 100 256 4096)).1 in
  disk s = [Parsed (mkEntry "k" "v" false); Parsed (mkEntry "k" "" true);
            Parsed (mkEntry "k" "w" false)] ∧
  replay (disk s) !! "k" = Some "w" ∧
  Legacy.Get "k" s = ("", false) ∧
  Get "k" s = ("w", true).
Proof. split_and!; vm_compute; reflexivity. Qed.

(** ** Memory mode against file-only mode *)




(** The further conditions of the amended claim are needed.  A key that is
    not valid UTF-8 is kept as it is in the index and written with U+FFFD in
    the log; a write that fails after some bytes leaves a line to which the
    next record is joined; a record of 64 KiB or more, which [Delete] writes
    for a key of that length whatever the limits, stops the scanner for good,
    so that [FindByFunction] fails in file-only mode and a store opened
    again does not find what was written after it. *)
Lemma modes_differ_when_records_are_not_read_back :
  let both ops := ((run ops (NewStore [] Clean (example_config true))).1,
                   (run ops (NewStore [] Clean (example_config false))).1) in
  let invalid := both [OpSet NoFault bad_key "1"] in
  let torn := both [OpSet (FailsAfter 5) "a" "1"; OpSet NoFault "b" "2"] in
  let long := both [OpDelete NoFault long_key; OpSet NoFault "a" "1"] in
  Get bad_key invalid.1 = ("1", true) ∧ Get bad_key invalid.2 = ("", false) ∧
  Get replacement invalid.1 = ("", false) ∧ Get replacement invalid.2 = ("1", true) ∧
  Get "b" torn.1 = ("2", true) ∧ Get "b" torn.2 = ("", false) ∧
  disk torn.2 = [Malformed] ∧
  Get "a" long.1 = ("1", true) ∧ Get "a" long.2 = ("", false) ∧
  disk long.1 = [] ∧ ending long.1 = Overlong ∧
  FindByFunction (λ _ _, true) long.2 = Err TokenTooLong ∧
  Get "a" (NewStore (disk long.1) (ending long.1) (example_config true)) = ("", false).
Proof. split_and!; vm_compute; reflexivity. Qed.

(** ** A failed [Set] *)

(** C8, as stated, fails: [Set] does not look at the number of bytes its
    write put in the file.  When the write fails after five bytes, [Set]
    returns the write error and the log holds a line that was not there; the
    record of the next [Set], which succeeds, makes one line with it and is
    not read back.  When the write fails after the whole record but before
    its newline, [Set] returns the write error and the key is read back all
    the same. *)
Lemma Set_failed_write_leaves_torn_record :
  let s := NewStore [] Clean (example_config false) in
  let s1 := (Set' (FailsAfter 5) "k" "v" s).1 in
  let s2 := (Set' (FailsAfter 23) "k" "v" s).1 in
  (Set' (FailsAfter 5) "k" "v" s).2 = Some ErrorWritingLogFile ∧
  disk s = [] ∧ disk s1 = [Malformed] ∧ ending s1 = Torn 5 ∧ s1 ≠ s ∧
  (Set' NoFault "j" "w" s1).2 = None ∧
  Get "j" (Set' NoFault "j" "w" s1).1 = ("", false) ∧
  (Set' (FailsAfter 23) "k" "v" s).2 = Some ErrorWritingLogFile ∧
  Get "k" s = ("", false) ∧ Get "k" s2 = ("v", true).
Proof. split_and!; try (vm_compute; reflexivity). vm_compute. discriminate. Qed.

(** C8, amended. When [Set] returns an error, whichever it is, the index and
    the configuration are as they were.  A write error is returned only after
    the size and capacity checks have passed; when the error is one of those
    checks, the log is as it was too, and so it is when the write failed on a
    closed handle or before its first byte.  Otherwise the log may hold the
    part of the record that was written before the failure. *)
Theorem Set_error_leaves_index w key value s e :
  (Set' w key value s).2 = Some e →
  data (Set' w key value s).1 = data s ∧
  useMemory (Set' w key value s).1 = useMemory s ∧
  file (Set' w key value s).1 = file s ∧
  maxKeys (Set' w key value s).1 = maxKeys s ∧
  maxKeySize (Set' w key value s).1 = maxKeySize s ∧
  maxValueSize (Set' w key value s).1 = maxValueSize s ∧
  (e ≠ ErrorWritingLogFile → (Set' w key value s).1 = s) ∧
  (file s = Closed ∨ atomic w → (Set' w key value s).1 = s) ∧
  (e = ErrorWritingLogFile →
   len key ≤ maxKeySize s ∧ len value ≤ maxValueSize s ∧
   (useMemory s = true → len_map (data s) < maxKeys s)).
Proof.
  intros Herr.
  destruct (decide (len key ≤ maxKeySize s ∧ len value ≤ maxValueSize s ∧
    (useMemory s = true → len_map (data s) < maxKeys s))) as [(Hk & Hv & Hc)|Hnot].
  - rewrite Set_within_limits in * by done. simpl in *.
    destruct (WriteString _ _ _ _ _) as [[lines en] written] eqn:Hw. simpl in *.
    destruct written; [done|]. simpl. injection Herr as <-.
    split_and!; try done. intros Hcase.
    rewrite WriteString_failed_whole in Hw; [|done|by rewrite Hw].
    injection Hw as <- <-. apply with_log_id.
  - destruct (Set_rejected w key value s Hnot) as (e' & Heq & Hne).
    rewrite Heq in *. simpl in *. injection Herr as ->.
    split_and!; done.
Qed.

Lemma Set_error_leaves_index_witness :
  let s := (Set' NoFault "k" "v" (NewStore [] Clean (example_config true))).1 in
  (Set' (FailsAfter 7) "j" "w" s).2 = Some ErrorWritingLogFile ∧
  data (Set' (FailsAfter 7) "j" "w" s).1 = data s ∧
  disk (Set' (FailsAfter 7) "j" "w" s).1 = disk s ++ [Malformed] ∧
  (Set' (FailsAfter 0) "j" "w" s).2 = Some ErrorWritingLogFile ∧
  (Set' (FailsAfter 0) "j" "w" s).1 = s.
Proof.
  intros s.
  assert ((Set' (FailsAfter 7) "j" "w" s).2 = Some ErrorWritingLogFile) as H1
    by (vm_compute; reflexivity).
  assert (disk (Set' (FailsAfter 7) "j" "w" s).1 = disk s ++ [Malformed]) as H2
    by (vm_compute; reflexivity).
  assert ((Set' (FailsAfter 0) "j" "w" s).2 = Some ErrorWritingLogFile) as H3
    by (vm_compute; reflexivity).
  assert (atomic (FailsAfter 0)) as H4 by (vm_compute; discriminate).
  pose proof (Set_error_leaves_index (FailsAfter 7) "j" "w" s _ H1) as (Ha & _).
  pose proof (Set_error_leaves_index (FailsAfter 0) "j" "w" s _ H3)
    as (_ & _ & _ & _ & _ & _ & _ & Hb & _).
  exact (conj H1 (conj Ha (conj H2 (conj H3 (Hb (or_intror H4)))))).
Defined.

(** ** [Delete] *)

(** C9. [Delete] checks nothing: for every key, whatever its length and
    however full the index, on an open log and without a write failure it
    appends a tombstone for the key, removes the key from the index in memory
    mode, and returns no error; and an error it returns is never a validation
    or capacity error.  The tombstone is the record [json.Marshal] makes for
    the key; on a file that ends after a newline, and for a key that is valid
    UTF-8 and makes a record shorter than 64 KiB, the readers get one more
    line, the tombstone of the key. *)
Theorem Delete_checks_nothing key s :
  (file s = Open →
   (Delete NoFault key s).2 = None ∧
   (disk (Delete NoFault key s).1, ending (Delete NoFault key s).1) =
     add_bytes (Marshal_len (mkEntry key "" true)) (as_read (mkEntry key "" true)) true
               (disk s) (ending s) ∧
   (ending s = Clean → readable (mkEntry key "" true) →
    disk (Delete NoFault key s).1 = disk s ++ [Parsed (mkEntry key "" true)] ∧
    ending (Delete NoFault key s).1 = Clean) ∧
   data (Delete NoFault key s).1 = (if useMemory s then delete key (data s) else data s)) ∧
  (∀ w e, (Delete w key s).2 = Some e →
     e = ErrorWritingLogFile ∧
     kind_of e ≠ ValidationError ∧ kind_of e ≠ CapacityError).
Proof.
  split.
  - intros Ho. rewrite Delete_spec, Ho, WriteString_NoFault. simpl.
    split_and!; try done.
    + by destruct (add_bytes _ _ _ _ _).
    + intros -> Hr. by rewrite add_bytes_readable.
  - intros w e. rewrite Delete_spec. simpl.
    destruct (WriteString _ _ _ _ _).2; simpl; [done|]. by intros [= <-].
Qed.

Lemma Delete_checks_nothing_witness :
  let s := (Set' NoFault "a" "1" (NewStore [] Clean (mkConfig true 1 2 2))).1 in
  file s = Open ∧ len_map (data s) >= maxKeys s ∧ len "a long key" > maxKeySize s ∧
  ending s = Clean ∧ readable (mkEntry "a long key" "" true) ∧
  (Delete NoFault "a long key" s).2 = None ∧
  disk (Delete NoFault "a long key" s).1
    = disk s ++ [Parsed (mkEntry "a long key" "" true)] ∧
  data (Delete NoFault "a long key" s).1
    = (if useMemory s then delete "a long key" (data s) else data s).
Proof.
  intros s.
  assert (file s = Open) as H1 by reflexivity.
  assert (len_map (data s) >= maxKeys s) as H2 by (vm_compute; discriminate).
  assert (len "a long key" > maxKeySize s) as H3 by (vm_compute; reflexivity).
  assert (ending s = Clean) as H4 by reflexivity.
  assert (readable (mkEntry "a long key" "" true)) as H5
    by (vm_compute; intuition discriminate).
  pose proof (proj1 (Delete_checks_nothing "a long key" s) H1) as (Ha & _ & Hb & Hc).
  exact (conj H1 (conj H2 (conj H3 (conj H4 (conj H5
           (conj Ha (conj (proj1 (Hb H4 H5)) Hc))))))).
Defined.

(** ** The entries returned by [FindByFunction] *)

(** C10. Every entry of a list [FindByFunction] returns without error has its
    [Deleted] field false. *)
Theorem FindByFunction_entries_not_deleted fn s r :
  FindByFunction fn s = Ok r → Forall (λ e, Deleted e = false) r.
Proof.
  intros Hr. apply FindByFunction_Ok in Hr as (-> & _).
  apply Forall_fmap, Forall_true. by intros [k v].
Qed.

Lemma FindByFunction_entries_not_deleted_witness :
  let fn := λ key value : string, bool_decide (key = "k4") || bool_decide (value = "v5") in
  let s := (run [OpSet NoFault "k4" "v4"; OpSet NoFault "k3" "v3"; OpDelete NoFault "k3";
                 OpSet NoFault "k5" "v5"]
                (NewStore [Parsed (mkEntry "k4" "" true)] Clean (example_config false))).1 in
  let r := [mkEntry "k5" "v5" false; mkEntry "k4" "v4" false] in
  FindByFunction fn s = Ok r ∧ Forall (λ e, Deleted e = false) r.
Proof.
  intros fn s r.
  assert (FindByFunction fn s = Ok r) as H1 by (vm_compute; reflexivity).
  exact (conj H1 (FindByFunction_entries_not_deleted fn s r H1)).
Defined.

(** * Further properties of the operations *)

(** ** Reading back what was written *)

(** X1. When [Set(key, value)] returns no error, a [Get(key)] that follows
    returns [value] and reports the key present: always in memory mode, and
    in file-only mode when the file ended after a newline and the key and
    the value are valid UTF-8 and make a record shorter than 64 KiB. *)
Theorem Set_then_Get w key value s :
  (Set' w key value s).2 = None →
  (useMemory s = false → ending s = Clean ∧ readable (mkEntry key value false)) →
  Get key (Set' w key value s).1 = (value, true).
Proof.
  destruct (Set' w key value s) as [s' e] eqn:Hset. simpl. intros -> Hfile.
  apply Set_ok in Hset as (_ & _ & _ & _ & _ & ->).
  destruct (useMemory s) eqn:Hm.
  - rewrite Get_memory by done. simpl. by rewrite lookup_insert_eq.
  - destruct (Hfile eq_refl) as [Hcl Hr].
    rewrite Get_unindexed by done. simpl. rewrite Hcl, add_bytes_readable by done.
    simpl. rewrite replay_snoc. simpl.
    unfold apply_entry. simpl. by rewrite lookup_insert_eq.
Qed.

Lemma Set_then_Get_witness :
  let s := NewStore [Parsed (mkEntry "k" "old" false)] Clean (example_config false) in
  (Set' NoFault "k" "new" s).2 = None ∧
  (useMemory s = false → ending s = Clean ∧ readable (mkEntry "k" "new" false)) ∧
  Get "k" (Set' NoFault "k" "new" s).1 = ("new", true).
Proof.
  intros s.
  assert ((Set' NoFault "k" "new" s).2 = None) as H1 by (vm_compute; reflexivity).
  assert (useMemory s = false → ending s = Clean ∧ readable (mkEntry "k" "new" false)) as H2
    by (intros _; vm_compute; intuition discriminate).
  exact (conj H1 (conj H2 (Set_then_Get NoFault "k" "new" s H1 H2))).
Defined.



(** On a file that does not end with an unterminated line, a write leaves
    the lines that were there and adds at most one: the record as it is read
    back, or a line that does not decode. *)
Lemma WriteString_lines h w entry lines e :
  (∀ n, e ≠ Torn n) →
  let lines' := (WriteString h w entry lines e).1.1 in
  lines' = lines ∨ lines' = lines ++ [Malformed] ∨ lines' = lines ++ [as_read entry].
Proof.
  intros Hnt. unfold WriteString, add_bytes.
  destruct h; [|by left]. destruct w as [|n].
  - destruct e as [|n|]; [|by destruct (Hnt n)|by left].
    destruct (_ >=? _); simpl; [by left|by right; right].
  - destruct (n <=? 0); [by left|].
    destruct (n <? Marshal_len entry).
    + destruct e as [|m|]; [|by destruct (Hnt m)|by left].
      destruct (_ >=? _); simpl; [by left|by right; left].
    + destruct e as [|m|]; [|by destruct (Hnt m)|by left].
      destruct (_ >=? _); simpl; [by left|by right; right].
Qed.

Lemma step_lines o s :
  (∀ n, ending s ≠ Torn n) →
  disk (step o s).1 = disk s ∨ disk (step o s).1 = disk s ++ [Malformed] ∨
  disk (step o s).1 = disk s ++ [as_read (entry_of o)].
Proof.
  intros Hnt. destruct o as [w key value|w key]; simpl.
  - destruct (decide (len key ≤ maxKeySize s ∧ len value ≤ maxValueSize s ∧
      (useMemory s = true → len_map (data s) < maxKeys s))) as [(Hk & Hv & Hc)|Hnot].
    + rewrite Set_within_limits by done. simpl.
      pose proof (WriteString_lines (file s) w (mkEntry key value false)
                    (disk s) (ending s) Hnt) as Hl. simpl in Hl.
      by destruct (WriteString _ _ _ _ _).2.
    + destruct (Set_rejected w key value s Hnot) as (e & -> & _). by left.
  - rewrite Delete_spec. simpl.
    pose proof (WriteString_lines (file s) w (mkEntry key "" true)
                  (disk s) (ending s) Hnt) as Hl. simpl in Hl.
    by destruct (WriteString _ _ _ _ _).2.
Qed.

(** X3. A [Set] or a [Delete] of one key, successful or not, changes the
    answer of [Get] for no other key: always in memory mode, and in
    file-only mode when the file does not end with an unterminated line and
    the other key is not what the written key becomes once its invalid bytes
    have been replaced by U+FFFD. *)
Theorem mutation_leaves_other_keys o s key :
  op_key o ≠ key →
  (useMemory s = false → coerce (op_key o) ≠ key ∧ ∀ n, ending s ≠ Torn n) →
  Get key (step o s).1 = Get key s.
Proof.
  intros Hne Hfile. destruct (useMemory s) eqn:Hm.
  - rewrite !Get_memory by (by rewrite ?step_useMemory). f_equal.
    destruct o as [w k value|w k]; simpl in *.
    + destruct (decide (len k ≤ maxKeySize s ∧ len value ≤ maxValueSize s ∧
        (useMemory s = true → len_map (data s) < maxKeys s))) as [(Hk & Hv & Hc)|Hnot].
      * rewrite Set_within_limits by done. simpl. rewrite Hm.
        destruct (WriteString _ _ _ _ _).2; simpl; [|done]. by rewrite lookup_insert_ne.
      * by destruct (Set_rejected w k value s Hnot) as (e & -> & _).
    + rewrite Delete_spec. simpl. rewrite Hm.
      destruct (WriteString _ _ _ _ _).2; simpl; [|done]. by rewrite lookup_delete_ne.
  - destruct (Hfile eq_refl) as [Hc Hnt].
    rewrite !Get_unindexed by (by rewrite ?step_useMemory). f_equal.
    destruct (step_lines o s Hnt) as [-> | [-> | ->]]; [done|by rewrite replay_snoc|].
    rewrite replay_snoc. unfold as_read, replay_line, apply_entry. simpl.
    assert (coerce (Key (entry_of o)) ≠ key) as Hk by (by destruct o).
    destruct (Deleted (entry_of o)).
    + by rewrite lookup_delete_ne.
    + by rewrite lookup_insert_ne.
Qed.

Lemma mutation_leaves_other_keys_witness :
  let s := NewStore [Parsed (mkEntry "a" "1" false); Parsed (mkEntry "b" "2" false)]
                    Clean (example_config false) in
  let o := OpDelete (FailsAfter 3) "a" in
  op_key o ≠ "b" ∧
  (useMemory s = false → coerce (op_key o) ≠ "b" ∧ ∀ n, ending s ≠ Torn n) ∧
  Get "b" (step o s).1 = Get "b" s.
Proof.
  intros s o.
  assert (op_key o ≠ "b") as H1 by (vm_compute; discriminate).
  assert (useMemory s = false → coerce (op_key o) ≠ "b" ∧ ∀ n, ending s ≠ Torn n) as H2.
  { intros _. split; [vm_compute; discriminate|]. intros n. vm_compute. discriminate. }
  exact (conj H1 (conj H2 (mutation_leaves_other_keys o s "b" H1 H2))).
Defined.

(** ** When [Set] succeeds *)

(** X4. [Set] returns no error exactly when the key and the value are within
    their size limits, the index (in memory mode only) holds fewer than
    [maxKeys] keys, and the write to the log succeeds; in file-only mode the
    number of keys is not limited. *)
Theorem Set_succeeds_iff w key value s :
  (Set' w key value s).2 = None ↔
  len key ≤ maxKeySize s ∧ len value ≤ maxValueSize s ∧
  (useMemory s = true → len_map (data s) < maxKeys s) ∧
  file s = Open ∧ w = NoFault.
Proof.
  split.
  - destruct (Set' w key value s) as [s' e] eqn:Hset. simpl. intros ->.
    apply Set_ok in Hset as (-> & Ho & Hk & Hv & Hc & _). done.
  - intros (Hk & Hv & Hc & Ho & ->).
    rewrite Set_within_limits by done. by rewrite Ho.
Qed.

Lemma Set_succeeds_iff_witness :
  let s := NewStore [Parsed (mkEntry "a" "1" false); Parsed (mkEntry "b" "2" false)]
                    Clean (mkConfig false 1 4 4) in
  len "c" ≤ maxKeySize s ∧ len "3" ≤ maxValueSize s ∧
  (useMemory s = true → len_map (data s) < maxKeys s) ∧
  file s = Open ∧
  (Set' NoFault "c" "3" s).2 = None.
Proof.
  intros s.
  assert (len "c" ≤ maxKeySize s) as H1 by (vm_compute; discriminate).
  assert (len "3" ≤ maxValueSize s) as H2 by (vm_compute; discriminate).
  assert (useMemory s = true → len_map (data s) < maxKeys s) as H3
    by (intros Hm; discriminate Hm).
  assert (file s = Open) as H4 by reflexivity.
  exact (conj H1 (conj H2 (conj H3 (conj H4
    (proj2 (Set_succeeds_iff NoFault "c" "3" s)
           (conj H1 (conj H2 (conj H3 (conj H4 eq_refl))))))))).
Defined.

(** X5. In memory mode a [Delete] of a key of the index makes room: on a
    store whose index holds at most [maxKeys] keys, after deleting a present
    key, a [Set] of any key and value within the size limits succeeds. *)
Theorem Delete_makes_room key key' value s :
  useMemory s = true → file s = Open →
  is_Some (data s !! key) →
  len_map (data s) ≤ maxKeys s →
  len key' ≤ maxKeySize s → len value ≤ maxValueSize s →
  (Delete NoFault key s).2 = None ∧
  (Set' NoFault key' value (Delete NoFault key s).1).2 = None.
Proof.
  intros Hm Ho Hin Hfull Hk Hv. rewrite Delete_spec, Ho, Hm. simpl. split; [done|].
  rewrite Set_within_limits; simpl; [done..|].
  intros _. unfold len_map in *. rewrite map_size_delete_Some by done.
  assert (size (data s) ≠ 0%nat).
  { intros Hz. apply map_size_empty_iff in Hz. rewrite Hz in Hin.
    rewrite lookup_empty in Hin. by destruct Hin. }
  lia.
Qed.

Lemma Delete_makes_room_witness :
  let s := (Set' NoFault "a" "1" (NewStore [] Clean (mkConfig true 1 256 1024))).1 in
  useMemory s = true ∧ file s = Open ∧ is_Some (data s !! "a") ∧
  len_map (data s) ≤ maxKeys s ∧ len "b" ≤ maxKeySize s ∧ len "2" ≤ maxValueSize s ∧
  (Set' NoFault "b" "2" s).2 = Some (ReachedMaxKeys 1) ∧
  (Delete NoFault "a" s).2 = None ∧
  (Set' NoFault "b" "2" (Delete NoFault "a" s).1).2 = None.
Proof.
  intros s.
  assert (useMemory s = true) as H1 by reflexivity.
  assert (file s = Open) as H2 by reflexivity.
  assert (is_Some (data s !! "a")) as H3 by (vm_compute; eauto).
  assert (len_map (data s) ≤ maxKeys s) as H4 by (vm_compute; discriminate).
  assert (len "b" ≤ maxKeySize s) as H5 by (vm_compute; discriminate).
  assert (len "2" ≤ maxValueSize s) as H6 by (vm_compute; discriminate).
  assert ((Set' NoFault "b" "2" s).2 = Some (ReachedMaxKeys 1)) as H7
    by (vm_compute; reflexivity).
  exact (conj H1 (conj H2 (conj H3 (conj H4 (conj H5 (conj H6 (conj H7
           (Delete_makes_room "a" "b" "2" s H1 H2 H3 H4 H5 H6)))))))).
Defined.

(** ** The size of the index *)

Lemma apply_entry_size e d : len_map (apply_entry e d) ≤ len_map d + 1.
Proof.
  unfold apply_entry, len_map. destruct (Deleted e).
  - rewrite map_size_delete. destruct (d !! Key e); simpl; lia.
  - rewrite map_size_insert. destruct (d !! Key e); simpl; lia.
Qed.

Lemma call_step_maxKeys s c : maxKeys (call_step s c) = maxKeys s.
Proof.
  destruct c as [w key value|w key| |]; simpl; try done.
  - apply (step_frame (OpSet w key value)).
  - apply (step_frame (OpDelete w key)).
Qed.

Lemma call_step_size s c B :
  maxKeys s ≤ B → len_map (data s) ≤ B → len_map (data (call_step s c)) ≤ B.
Proof.
  intros HB Hd. destruct c as [w key value|w key| |]; simpl; try done.
  - destruct (decide (len key ≤ maxKeySize s ∧ len value ≤ maxValueSize s ∧
      (useMemory s = true → len_map (data s) < maxKeys s))) as [(Hk & Hv & Hc)|Hnot].
    + rewrite Set_within_limits by done. simpl.
      destruct (WriteString _ _ _ _ _).2; simpl; [|done].
      destruct (useMemory s); [|done]. specialize (Hc eq_refl).
      pose proof (apply_entry_size (mkEntry key value false) (data s)) as Hs.
      unfold apply_entry in Hs. simpl in Hs. lia.
    + by destruct (Set_rejected w key value s Hnot) as (e & -> & _).
  - rewrite Delete_spec. simpl.
    destruct (WriteString _ _ _ _ _).2; simpl; [|done].
    destruct (useMemory s); [|done].
    unfold len_map in *. rewrite map_size_delete. destruct (data s !! key); simpl; lia.
Qed.

(** X6. [Set] never lets the index grow beyond [maxKeys]: after any sequence
    of [Set], [Delete], [Compact] and [Close] calls the index holds at most
    as many keys as the larger of [maxKeys] and the number it held at the
    start. *)
Theorem index_size_bounded cs s :
  len_map (data (calls cs s)) ≤ Z.max (len_map (data s)) (maxKeys s).
Proof.
  assert (∀ B s, maxKeys s ≤ B → len_map (data s) ≤ B →
                 len_map (data (calls cs s)) ≤ B) as Hgen.
  { induction cs as [|c cs IH]; intros B s0 HB Hd; [done|]. simpl. apply IH.
    - by rewrite call_step_maxKeys.
    - by apply call_step_size. }
  apply Hgen; lia.
Qed.

Lemma load_loop_size maxK lines d :
  len_map d ≤ Z.max maxK 0 →
  len_map (load_loop maxK lines d) ≤ Z.max maxK 0 + 1.
Proof.
  revert d. induction lines as [|l rest IH]; intros d Hd; simpl; [lia|].
  destruct l as [|e]; [by apply IH|].
  pose proof (apply_entry_size e d) as Hs.
  destruct (len_map (apply_entry e d) >? maxK) eqn:Hgt; [lia|].
  apply IH. lia.
Qed.

(** X7. The index built by [NewStore] exceeds the limit by one key at most:
    it holds at most [max(maxKeys, 0) + 1] keys, whatever the log. *)
Theorem NewStore_index_size lines e config :
  len_map (data (NewStore lines e config)) ≤ Z.max (MaxKeys config) 0 + 1.
Proof.
  unfold NewStore. destruct (UseMemory config); simpl.
  - apply load_loop_size. unfold len_map. rewrite map_size_empty. lia.
  - unfold len_map. rewrite map_size_empty. lia.
Qed.

(** ** The log under [Set] and [Delete] *)

(** X8. On a file that ends after a newline, under [Set] and [Delete] calls
    whose keys and values are valid UTF-8, whose records are shorter than
    64 KiB and whose writes succeed or fail before the first byte, the log is
    append-only: after the calls its lines are the lines before, followed by
    one record for each call that returned no error, in the order of the
    calls, and the file ends after a newline again. *)
Theorem log_is_append_only ops s :
  Forall plain ops → ending s = Clean →
  disk (run ops s).1 = disk s ++ written ops (run ops s).2 ∧
  ending (run ops s).1 = Clean ∧
  disk s `prefix_of` disk (run ops s).1.
Proof.
  intros Hall Hcl.
  assert (disk (run ops s).1 = disk s ++ written ops (run ops s).2 ∧
          ending (run ops s).1 = Clean) as [Heq Hen].
  { revert s Hcl. induction Hall as [|o rest Ho Hall IH]; intros s Hcl.
    - simpl. by rewrite app_nil_r.
    - rewrite run_cons. cbn [fst snd].
      destruct (step_plain o s Ho Hcl) as (Hc1 & Hd1 & _).
      destruct (IH _ Hc1) as [-> ->]. split; [|done]. rewrite Hd1.
      destruct (step o s).2; simpl; [done|]. by rewrite <-app_assoc. }
  split_and!; [done..|]. rewrite Heq. by apply prefix_app_r.
Qed.

Lemma log_is_append_only_witness :
  let s := NewStore [Malformed] Clean (mkConfig true 1 4 4) in
  let ops := [OpSet NoFault "a" "1"; OpSet NoFault "b" "2"; OpDelete (FailsAfter 0) "a";
              OpDelete NoFault "a"; OpSet NoFault "too long" "3"] in
  Forall plain ops ∧ ending s = Clean ∧
  disk (run ops s).1 =
    [Malformed; Parsed (mkEntry "a" "1" false); Parsed (mkEntry "a" "" true)] ∧
  disk (run ops s).1 = disk s ++ written ops (run ops s).2.
Proof.
  intros s ops.
  assert (Forall plain ops) as H1 by (repeat constructor; vm_compute; intuition discriminate).
  assert (ending s = Clean) as H2 by reflexivity.
  assert (disk (run ops s).1 =
    [Malformed; Parsed (mkEntry "a" "1" false); Parsed (mkEntry "a" "" true)]) as H3
    by (vm_compute; reflexivity).
  exact (conj H1 (conj H2 (conj H3 (proj1 (log_is_append_only ops s H1 H2))))).
Defined.

(** ** A store on an empty file *)

(** X9. On an empty file, in either mode and with any limits, every [Get]
    reports the key absent with the empty string as value, and
    [FindByFunction] returns the no-entries error for every predicate. *)
Theorem fresh_store_is_empty config key fn :
  Get key (NewStore [] Clean config) = ("", false) ∧
  FindByFunction fn (NewStore [] Clean config) = Err NoEntriesFound.
Proof.
  destruct config as [[] mk mks mvs]; unfold NewStore, Get, FindByFunction; simpl.
  - rewrite lookup_empty, find_in_memory_empty, map_to_list_empty. done.
  - rewrite find_in_memory_empty, map_to_list_empty. done.
Qed.

(** ** Lines that do not decode *)

Lemma load_loop_decodes maxK lines d :
  load_loop maxK (List.filter decodes lines) d = load_loop maxK lines d.
Proof.
  revert d. induction lines as [|l rest IH]; intros d; [done|].
  destruct l as [|e]; simpl; [apply IH|]. by rewrite IH.
Qed.

Lemma Get_scan_decodes key lines lastValue exists_ :
  Get_scan key (List.filter decodes lines) lastValue exists_
  = Get_scan key lines lastValue exists_.
Proof.
  revert lastValue exists_. induction lines as [|l rest IH]; intros lv ex; [done|].
  destruct l as [|e]; simpl; [apply IH|]. by rewrite !IH.
Qed.

Lemma find_in_file_decodes fn lines results :
  find_in_file fn (List.filter decodes lines) results = find_in_file fn lines results.
Proof.
  revert results. induction lines as [|l rest IH]; intros r; [done|].
  destruct l as [|e]; simpl; [apply IH|]. by rewrite !IH.
Qed.

(** X10. Lines of the log that do not decode are skipped by every reader:
    taking them out of the file changes neither the index [NewStore] builds,
    nor the answer of [Get], nor the result of [FindByFunction]. *)
Theorem malformed_lines_are_skipped :
  (∀ lines e config,
     data (NewStore (List.filter decodes lines) e config)
     = data (NewStore lines e config)) ∧
  (∀ s key,
     Get key (with_disk (List.filter decodes (disk s)) s) = Get key s) ∧
  (∀ s fn,
     FindByFunction fn (with_disk (List.filter decodes (disk s)) s)
     = FindByFunction fn s).
Proof.
  split_and!.
  - intros lines e config. unfold NewStore, load.
    destruct (UseMemory config); simpl; [|done].
    apply load_loop_decodes.
  - intros s key. unfold Get. simpl. destruct (useMemory s); [done|].
    apply Get_scan_decodes.
  - intros s fn. unfold FindByFunction. simpl. destruct (useMemory s); [done|].
    by rewrite find_in_file_decodes.
Qed.

(** ** The result of a search *)

Lemma find_in_file_Forall fn lines results :
  map_Forall (λ k v, fn k v = true) results →
  map_Forall (λ k v, fn k v = true) (find_in_file fn lines results).
Proof.
  revert results. induction lines as [|l rest IH]; intros r Hr; [done|].
  destruct l as [|e]; simpl; [by apply IH|].
  destruct (Deleted e); [by apply IH|].
  destruct (fn (Key e) (Value e)) eqn:Hfn; [|by apply IH].
  apply IH. by apply map_Forall_insert_2.
Qed.

Lemma find_in_memory_Forall fn d :
  map_Forall (λ k v, fn k v = true) (find_in_memory fn d).
Proof.
  rewrite find_in_memory_filter. intros k v Hkv.
  by apply map_lookup_filter_Some in Hkv as [_ Hfn].
Qed.

(** X11. A list [FindByFunction] returns without error is not empty, holds
    no key twice, and each of its entries satisfies the predicate; this holds
    in both modes. *)
Theorem FindByFunction_result_sound fn s r :
  FindByFunction fn s = Ok r →
  r ≠ [] ∧ NoDup (Key <$> r) ∧ Forall (λ e, fn (Key e) (Value e) = true) r.
Proof.
  intros Hr. apply FindByFunction_Ok in Hr as [-> Hne]. split_and!; [done| |].
  - rewrite <-list_fmap_compose.
    assert (∀ l : list (string * string),
              (Key ∘ (λ kv, mkEntry kv.1 kv.2 false)) <$> l = l.*1) as ->
      by (intros l; by apply list_fmap_ext).
    apply NoDup_fst_map_to_list.
  - apply Forall_fmap, Forall_forall. intros [k v] Hkv. simpl.
    apply elem_of_map_to_list in Hkv. revert k v Hkv. unfold found.
    destruct (useMemory s).
    + apply find_in_memory_Forall.
    + apply find_in_file_Forall, find_in_memory_Forall.
Qed.

Lemma FindByFunction_result_sound_witness :
  let fn := λ key value : string, bool_decide (key = "k4") || bool_decide (value = "v5") in
  let s := (run [OpSet NoFault "k4" "v4"; OpSet NoFault "k3" "v3"; OpSet NoFault "k5" "v5"]
                (NewStore [] Clean (example_config true))).1 in
  let r := [mkEntry "k5" "v5" false; mkEntry "k4" "v4" false] in
  FindByFunction fn s = Ok r ∧
  r ≠ [] ∧ NoDup (Key <$> r) ∧ Forall (λ e, fn (Key e) (Value e) = true) r.
Proof.
  intros fn s r.
  assert (FindByFunction fn s = Ok r) as H1 by (vm_compute; reflexivity).
  exact (conj H1 (FindByFunction_result_sound fn s r H1)).
Defined.

(** X12. In memory mode [FindByFunction] returns exactly the pairs of the
    index that satisfy the predicate: an entry is in a returned list if and
    only if [Get] of its key gives its value, the predicate holds of its key
    and value, and its [Deleted] field is false. *)
Theorem FindByFunction_memory_exact fn s e :
  useMemory s = true →
  (∃ r, FindByFunction fn s = Ok r ∧ e ∈ r) ↔
  (Get (Key e) s = (Value e, true) ∧ fn (Key e) (Value e) = true ∧ Deleted e = false).
Proof.
  intros Hm. rewrite FindByFunction_memory by done.
  rewrite Get_memory by done.
  assert (data s !! Key e = Some (Value e) ↔
          answer (data s !! Key e) = (Value e, true)) as ->; [|done].
  destruct (data s !! Key e) as [v|]; simpl; split; intros [=]; by subst.
Qed.

Lemma FindByFunction_memory_exact_witness :
  let fn := λ key value : string, bool_decide (value = "v") in
  let s := (run [OpSet NoFault "a" "v"; OpSet NoFault "b" "w"]
                (NewStore [] Clean (example_config true))).1 in
  useMemory s = true ∧
  ∃ r, FindByFunction fn s = Ok r ∧ mkEntry "a" "v" false ∈ r.
Proof.
  intros fn s.
  assert (useMemory s = true) as H1 by reflexivity.
  split; [done|].
  apply (proj2 (FindByFunction_memory_exact fn s (mkEntry "a" "v" false) H1)).
  split_and!; vm_compute; reflexivity.
Defined.

Lemma find_in_file_empty_iff fn lines results :
  find_in_file fn lines results = ∅ ↔
  results = ∅ ∧ Forall (λ l, matching fn l = false) lines.
Proof.
  revert results. induction lines as [|l rest IH]; intros r; simpl.
  - split; [by intros ->|by intros [-> _]].
  - destruct l as [|e]; simpl.
    + rewrite IH, Forall_cons. simpl. intuition.
    + destruct (Deleted e) eqn:Hd; simpl.
      * rewrite IH, Forall_cons. simpl. rewrite Hd. simpl. intuition.
      * destruct (fn (Key e) (Value e)) eqn:Hfn.
        -- rewrite IH, Forall_cons. simpl. rewrite Hd, Hfn. simpl. split.
           ++ intros [Hins _]. by apply insert_non_empty in Hins.
           ++ intros [_ [? _]]. done.
        -- rewrite IH, Forall_cons. simpl. rewrite Hd, Hfn. simpl. intuition.
Qed.

Lemma found_empty_iff fn s :
  found fn s = ∅ ↔
  (∀ k v, data s !! k = Some v → fn k v = false) ∧
  (useMemory s = false → Forall (λ l, matching fn l = false) (disk s)).
Proof.
  assert (find_in_memory fn (data s) = ∅ ↔
          ∀ k v, data s !! k = Some v → fn k v = false) as Hmem.
  { rewrite find_in_memory_filter, map_empty_filter. unfold map_Forall. simpl.
    split; intros H k v Hkv; specialize (H k v Hkv).
    - by destruct (fn k v).
    - by rewrite H. }
  unfold found. destruct (useMemory s).
  - rewrite Hmem. split; [intros H; split; [done|intros [=]]|by intros [H _]].
  - rewrite find_in_file_empty_iff, Hmem.
    split; [intros [H1 H2]; split; [done|by intros _]|intros [H1 H2]; split; [done|by apply H2]].
Qed.

(** X13. When the scanner reaches the end of the file, and always in memory
    mode, [FindByFunction] returns the no-entries error exactly when nothing
    matches: no pair of the map satisfies the predicate and, in file-only
    mode, no record delivered that is not a tombstone satisfies it.  In
    file-only mode, when the file holds a line of 64 KiB or more,
    [FindByFunction] returns the error of the scanner instead, whatever
    matches. *)
Theorem FindByFunction_not_found_iff fn s :
  (useMemory s = false → ending s = Overlong →
   FindByFunction fn s = Err TokenTooLong) ∧
  (useMemory s = true ∨ ending s ≠ Overlong →
   (FindByFunction fn s = Err NoEntriesFound ↔
    (∀ k v, data s !! k = Some v → fn k v = false) ∧
    (useMemory s = false → Forall (λ l, matching fn l = false) (disk s)))).
Proof.
  split.
  - intros Hu Hov. unfold FindByFunction. by rewrite Hu, Hov.
  - intros Hcase. rewrite <-found_empty_iff.
    assert (FindByFunction fn s =
              let result := (λ kv, mkEntry kv.1 kv.2 false) <$> map_to_list (found fn s) in
              if decide (length result = 0%nat) then Err NoEntriesFound else Ok result)
      as ->.
    { unfold FindByFunction, found. destruct (useMemory s); [done|].
      destruct Hcase as [|Hne]; [done|]. by destruct (ending s). }
    simpl. rewrite length_fmap. case_decide as Hlen.
    + apply length_zero_iff_nil, map_to_list_empty_iff in Hlen. done.
    + split; [done|]. intros Hemp. exfalso. apply Hlen.
      by apply length_zero_iff_nil, map_to_list_empty_iff.
Qed.

Lemma FindByFunction_not_found_iff_witness :
  let fn := λ key value : string, bool_decide (value = "v") in
  let s := NewStore [Parsed (mkEntry "a" "v" true); Malformed;
                     Parsed (mkEntry "b" "w" false)] Clean (example_config false) in
  let s' := NewStore [Parsed (mkEntry "a" "v" false)] Overlong (example_config false) in
  (useMemory s = true ∨ ending s ≠ Overlong) ∧
  (∀ k v, data s !! k = Some v → fn k v = false) ∧
  (useMemory s = false → Forall (λ l, matching fn l = false) (disk s)) ∧
  FindByFunction fn s = Err NoEntriesFound ∧
  useMemory s' = false ∧ ending s' = Overlong ∧
  FindByFunction fn s' = Err TokenTooLong.
Proof.
  intros fn s s'.
  assert (useMemory s = true ∨ ending s ≠ Overlong) as H0 by (by right).
  assert (∀ k v, data s !! k = Some v → fn k v = false) as H1.
  { intros k v Hkv. change (data s) with (∅ : gmap string string) in Hkv.
    by rewrite lookup_empty in Hkv. }
  assert (useMemory s = false → Forall (λ l, matching fn l = false) (disk s)) as H2.
  { intros _. repeat constructor. }
  assert (useMemory s' = false) as H3 by reflexivity.
  assert (ending s' = Overlong) as H4 by reflexivity.
  exact (conj H0 (conj H1 (conj H2
    (conj (proj2 (proj2 (FindByFunction_not_found_iff fn s) H0) (conj H1 H2))
          (conj H3 (conj H4 (proj1 (FindByFunction_not_found_iff fn s') H3 H4))))))).
Defined.

Lemma find_in_file_canonical fn lines d :
  Forall (λ l, live l = true) lines →
  NoDup (key_of <$> lines) →
  Forall (λ l, d !! key_of l = None) lines →
  find_in_file fn lines (filter (λ kv, fn kv.1 kv.2 = true) d)
  = filter (λ kv, fn kv.1 kv.2 = true) (replay_from d lines).
Proof.
  revert d. induction lines as [|l rest IH]; intros d Hlive Hnd Hfresh; [done|].
  apply Forall_cons in Hlive as [Hl Hlive].
  apply Forall_cons in Hfresh as [Hk Hfresh].
  rewrite fmap_cons in Hnd. apply NoDup_cons in Hnd as [Hnotin Hnd].
  destruct l as [|e]; simpl in *; [done|].
  destruct (Deleted e) eqn:Hd; [done|].
  assert (Forall (λ l, apply_entry e d !! key_of l = None) rest) as Hfresh'.
  { apply Forall_forall. intros l Hin. unfold apply_entry. rewrite Hd.
    rewrite lookup_insert_ne.
    - by apply (proj1 (Forall_forall _ _) Hfresh).
    - intros Heq. apply Hnotin. rewrite Heq. by apply list_elem_of_fmap_2. }
  rewrite <-(IH (apply_entry e d)) by done.
  unfold apply_entry. rewrite Hd.
  destruct (fn (Key e) (Value e)) eqn:Hfn.
  - by rewrite map_filter_insert_True.
  - rewrite map_filter_insert_False, delete_id; [done..|]. simpl. by rewrite Hfn.
Qed.

(** X14. In file-only mode, on a log the scanner reads to the end and in
    which every line decodes, no record is a tombstone and no key occurs
    twice, [FindByFunction] returns what the memory-mode search returns on
    the index that is the replay of that log. *)
Theorem FindByFunction_unindexed_on_canonical_log fn s :
  useMemory s = false → data s = ∅ → ending s ≠ Overlong → canonical (disk s) →
  FindByFunction fn s =
  FindByFunction fn (mkStore (replay (disk s)) true (disk s) (ending s) (file s)
                             (maxKeys s) (maxKeySize s) (maxValueSize s)).
Proof.
  intros Hu Hd Hno [Hlive Hnd]. unfold FindByFunction. simpl. rewrite Hu, Hd.
  assert (scanner_Err (ending s) = None) as -> by (by destruct (ending s)).
  rewrite !find_in_memory_filter.
  rewrite find_in_file_canonical; [done..|].
  apply Forall_true. intros l. by rewrite lookup_empty.
Qed.

Lemma FindByFunction_unindexed_on_canonical_log_witness :
  let fn := λ key value : string, bool_decide (key = "k4") || bool_decide (value = "v5") in
  let s := (run [OpSet NoFault "k4" "v4"; OpSet NoFault "k3" "v3"; OpSet NoFault "k5" "v5"]
                (NewStore [] Clean (example_config false))).1 in
  useMemory s = false ∧ data s = ∅ ∧ ending s ≠ Overlong ∧ canonical (disk s) ∧
  FindByFunction fn s =
  FindByFunction fn (mkStore (replay (disk s)) true (disk s) (ending s) (file s)
                             (maxKeys s) (maxKeySize s) (maxValueSize s)).
Proof.
  intros fn s.
  assert (useMemory s = false) as H1 by reflexivity.
  assert (data s = ∅) as H2 by (vm_compute; reflexivity).
  assert (ending s ≠ Overlong) as H3 by (vm_compute; discriminate).
  assert (canonical (disk s)) as H4.
  { split.
    - vm_compute. repeat constructor.
    - vm_compute. repeat constructor; rewrite ?elem_of_cons, ?elem_of_nil;
        intuition discriminate. }
  exact (conj H1 (conj H2 (conj H3 (conj H4
           (FindByFunction_unindexed_on_canonical_log fn s H1 H2 H3 H4))))).
Defined.

(** ** The older [Get] *)

Lemma Legacy_Get_scan_spec key lines lastValue exists_ :
  Legacy.Get_scan key lines lastValue exists_ =
    if existsb (is_tombstone_of key) lines then ("", false)
    else Get_scan key lines lastValue exists_.
Proof.
  revert lastValue exists_. induction lines as [|l rest IH]; intros lv ex; [done|].
  destruct l as [|e]; simpl; [apply IH|].
  destruct (decide (Key e = key)) as [Heq|Hne].
  - rewrite (bool_decide_eq_true_2 _ Heq). simpl.
    destruct (Deleted e); simpl; [done|apply IH].
  - rewrite (bool_decide_eq_false_2 _ Hne). simpl. apply IH.
Qed.

(** X15. The [Get] of the older copy of the package agrees with the current
    [Get] in memory mode, and in file-only mode as long as the log holds no
    tombstone of the key; once the log holds one, it reports the key absent
    whatever was written after the tombstone. *)
Theorem Legacy_Get_spec key s :
  Legacy.Get key s =
    if useMemory s then Get key s
    else if existsb (is_tombstone_of key) (disk s) then ("", false)
    else Get key s.
Proof.
  unfold Legacy.Get, Get. destruct (useMemory s); [done|].
  apply Legacy_Get_scan_spec.
Qed.

(** ** The index and the log under all calls *)

Lemma call_step_useMemory s c : useMemory (call_step s c) = useMemory s.
Proof.
  destruct c as [w key value|w key| |]; simpl; try done.
  - apply (step_useMemory (OpSet w key value)).
  - apply (step_useMemory (OpDelete w key)).
Qed.

Lemma calls_useMemory cs s : useMemory (calls cs s) = useMemory s.
Proof.
  revert s. induction cs as [|c cs IH]; intros s; [done|].
  simpl. fold (calls cs (call_step s c)). by rewrite IH, call_step_useMemory.
Qed.

Lemma calls_maxKeys cs s : maxKeys (calls cs s) = maxKeys s.
Proof.
  revert s. induction cs as [|c cs IH]; intros s; [done|].
  simpl. fold (calls cs (call_step s c)). by rewrite IH, call_step_maxKeys.
Qed.







(** ** Opening the log again *)








(** ** What [Compact] leaves *)



(** ** Filling the index *)

(** X19. The limit counts distinct keys.  In memory mode, on an open log,
    [Set] calls for keys that are pairwise distinct, not yet in the index and
    within the size limits all succeed as long as the index ends with at most
    [maxKeys] keys, and the index grows by one key for each call. *)
Theorem distinct_keys_fill_the_index kvs s :
  useMemory s = true → file s = Open →
  NoDup kvs.*1 →
  Forall (λ kv, data s !! kv.1 = None ∧
                len kv.1 ≤ maxKeySize s ∧ len kv.2 ≤ maxValueSize s) kvs →
  len_map (data s) + Z.of_nat (length kvs) ≤ maxKeys s →
  Forall (λ e, e = None) (run (sets_of kvs) s).2 ∧
  len_map (data (run (sets_of kvs) s).1) = len_map (data s) + Z.of_nat (length kvs).
Proof.
  revert s. induction kvs as [|[k v] kvs IH]; intros s Hm Ho Hnd Hall Hroom.
  - simpl. split; [done|lia].
  - rewrite fmap_cons in Hnd. apply NoDup_cons in Hnd as [Hk Hnd].
    apply Forall_cons in Hall as [(Hfresh & Hlk & Hlv) Hall].
    cbn [fst snd length] in *.
    change (sets_of ((k, v) :: kvs)) with (OpSet NoFault k v :: sets_of kvs).
    rewrite run_cons. cbn [fst snd step].
    rewrite Set_within_limits by (try done; intros _; lia).
    rewrite Ho, Hm, WriteString_NoFault. cbn [fst snd].
    set (s1 := mkStore _ _ _ _ _ _ _ _).
    assert (len_map (data s1) = len_map (data s) + 1) as Hsize.
    { subst s1. simpl. unfold len_map. rewrite map_size_insert_None by done. lia. }
    destruct (IH s1) as [Hes Hfin]; try done.
    + apply Forall_forall. intros kv Hin.
      destruct (proj1 (Forall_forall _ _) Hall kv Hin) as (Hf & Hkk & Hvv).
      subst s1. simpl. split_and!; try done.
      rewrite lookup_insert_ne; [done|]. intros ->. apply Hk.
      by apply (list_elem_of_fmap_2 fst) in Hin.
    + rewrite Hsize. change (maxKeys s1) with (maxKeys s). lia.
    + split.
      * by apply Forall_cons.
      * rewrite Hfin. lia.
Qed.

Lemma distinct_keys_fill_the_index_witness :
  let s := NewStore [] Clean (mkConfig true 2 4 4) in
  let kvs := [("a", "1"); ("b", "2")] in
  useMemory s = true ∧ file s = Open ∧ NoDup kvs.*1 ∧
  len_map (data s) + Z.of_nat (length kvs) ≤ maxKeys s ∧
  Forall (λ e, e = None) (run (sets_of kvs) s).2 ∧
  len_map (data (run (sets_of kvs) s).1) = len_map (data s) + Z.of_nat (length kvs) ∧
  (Set' NoFault "c" "3" (run (sets_of kvs) s).1).2 = Some (ReachedMaxKeys 2).
Proof.
  intros s kvs.
  assert (useMemory s = true) as H1 by reflexivity.
  assert (file s = Open) as H2 by reflexivity.
  assert (NoDup kvs.*1) as H3.
  { vm_compute. repeat constructor; rewrite ?elem_of_cons, ?elem_of_nil;
      intuition discriminate. }
  assert (Forall (λ kv, data s !! kv.1 = None ∧
                        len kv.1 ≤ maxKeySize s ∧ len kv.2 ≤ maxValueSize s) kvs) as H4.
  { repeat constructor; vm_compute; discriminate. }
  assert (len_map (data s) + Z.of_nat (length kvs) ≤ maxKeys s) as H5
    by (vm_compute; discriminate).
  assert ((Set' NoFault "c" "3" (run (sets_of kvs) s).1).2 = Some (ReachedMaxKeys 2)) as H6
    by (vm_compute; reflexivity).
  destruct (distinct_keys_fill_the_index kvs s H1 H2 H3 H4 H5) as [H7 H8].
  exact (conj H1 (conj H2 (conj H3 (conj H5 (conj H7 (conj H8 H6)))))).
Defined.
